(** * A shallow embedding of the PDA engine of [TOC.py]

    The class [PDASimulator] is a Python object whose methods mutate
    [self] and may raise.  It is embedded as a record of its ten
    attributes and a small state-and-exception monad over that record:
    every method is a computation that receives the object and gives
    back an outcome (a value or an exception) together with the object
    as the method left it. *)

From Stdlib Require Import String List.
From stdpp Require Import base option list strings gmap.

Open Scope string_scope.

(** ** Data *)

(** A transition key [(current_state, input, stack_top)].  The third
    component is what the peek [self.stack[0] if self.stack else None]
    yields, so it is optional. *)
Abbreviation Key := (string * string * option string)%type.

(** A transition value [(next_state, [push_symbols])]. *)
Abbreviation Rule := (string * list string)%type.

(** One dictionary appended to [self.log]; the keys of the dictionary
    are ["Input"], ["Action"], ["New State"], ["Stack"] and ["Result"]. *)
Record LogEntry : Type := mkLogEntry {
  Input : string;
  Action : string;
  New_State : string;
  Stack : string;
  Result : string
}.

Record PDASimulator : Type := mkPDASimulator {
  states : gset string;
  input_alphabet : gset string;
  stack_alphabet : gset string;
  transitions : gmap Key Rule;
  start_state : string;
  start_stack_symbol : string;
  accept_states : gset string;
  current_state : string;
  stack : list string;
  log : list LogEntry
}.

Definition set_current_state (v : string) (self : PDASimulator) : PDASimulator :=
  mkPDASimulator (states self) (input_alphabet self) (stack_alphabet self)
    (transitions self) (start_state self) (start_stack_symbol self)
    (accept_states self) v (stack self) (log self).

Definition set_stack (v : list string) (self : PDASimulator) : PDASimulator :=
  mkPDASimulator (states self) (input_alphabet self) (stack_alphabet self)
    (transitions self) (start_state self) (start_stack_symbol self)
    (accept_states self) (current_state self) v (log self).

Definition set_log (v : list LogEntry) (self : PDASimulator) : PDASimulator :=
  mkPDASimulator (states self) (input_alphabet self) (stack_alphabet self)
    (transitions self) (start_state self) (start_stack_symbol self)
    (accept_states self) (current_state self) (stack self) v.

(** ** The monad of methods *)

(** The only exception the engine can raise: [list.pop] on an empty list. *)
Inductive exn : Type := IndexError.

Definition M (A : Type) : Type := PDASimulator -> (exn + A) * PDASimulator.

Definition ret {A} (a : A) : M A := fun self => (inr a, self).

Definition bind {A B} (m : M A) (k : A -> M B) : M B :=
  fun self =>
    match m self with
    | (inr a, self') => k a self'
    | (inl e, self') => (inl e, self')
    end.

Definition raise {A} (e : exn) : M A := fun self => (inl e, self).

Definition get : M PDASimulator := fun self => (inr self, self).

Definition modify (f : PDASimulator -> PDASimulator) : M unit :=
  fun self => (inr tt, f self).

Notation "'let!' x ':=' c 'in' k" := (bind c (fun x => k))
  (at level 10, x name, c at level 100, k at level 200).
Notation "c ';;' k" := (bind c (fun _ => k))
  (at level 100, k at level 200, right associativity).

(** [for item in l: body(item)] for a body that cannot leave the loop. *)
Fixpoint for_each {A} (l : list A) (body : A -> M unit) : M unit :=
  match l with
  | [] => ret tt
  | item :: l' => body item ;; for_each l' body
  end.

(** ** List operations of the stack and the log *)

(** [self.stack.pop(0)] *)
Definition stack_pop0 : M string :=
  let! self := get in
  match stack self with
  | [] => raise IndexError
  | x :: rest => modify (set_stack rest) ;; ret x
  end.

(** [self.stack.insert(0, item)] *)
Definition stack_insert0 (item : string) : M unit :=
  modify (fun self => set_stack (item :: stack self) self).

(** [self.log.append(entry)] *)
Definition log_append (entry : LogEntry) : M unit :=
  modify (fun self => set_log (log self ++ [entry]) self).

(** ** String formatting *)

(** [sep.join(l)] *)
Definition join (sep : string) (l : list string) : string := String.concat sep l.

(** How an f-string prints a value that is a string or [None]. *)
Definition fmt_opt (o : option string) : string :=
  match o with
  | Some x => x
  | None => "None"
  end.

(** The truth value of a list: non-empty. *)
Definition truthy {A} (l : list A) : bool :=
  match l with
  | [] => false
  | _ :: _ => true
  end.

Definition Result_Halted : string := "Halted 🛑".
Definition Result_Success : string := "Success ✔️".
Definition Result_Stuck : string := "Stuck ❌".
Definition Result_Start : string := "Start 🚀".

(** ** The methods of [PDASimulator] *)

Definition reset : M unit :=
  let! self := get in
  modify (set_current_state (start_state self)) ;;
  let! self := get in
  modify (set_stack [start_stack_symbol self]) ;;
  modify (set_log []).

(** The constructor stores its seven arguments and calls [reset]; the
    three run-state attributes do not exist before that call, and
    [reset] assigns each of them without reading it. *)
Definition __init__ (states input_alphabet stack_alphabet : gset string)
    (transitions : gmap Key Rule) (start_state start_stack_symbol : string)
    (accept_states : gset string) : (exn + unit) * PDASimulator :=
  reset (mkPDASimulator states input_alphabet stack_alphabet transitions
           start_state start_stack_symbol accept_states "" [] []).

Definition get_stack_visualization (self : PDASimulator) : string :=
  if negb (truthy (stack self)) then "[] (Empty)"
  else "[" ++ join " | " (stack self) ++ "]".

Definition step (symbol : string) : M bool :=
  let! self := get in
  if decide (symbol ∉ input_alphabet self) then
    log_append {|
      Input := "'" ++ symbol ++ "'";
      Action := "ERROR: Input not in alphabet.";
      New_State := current_state self;
      Stack := get_stack_visualization self;
      Result := Result_Halted |} ;;
    ret false
  else
    let stack_top := head (stack self) in
    let key := (current_state self, symbol, stack_top) in
    match transitions self !! key with
    | Some (next_state, push_symbols) =>
        let! popped_symbol := stack_pop0 in
        (if truthy push_symbols
         then for_each (rev push_symbols) stack_insert0
         else ret tt) ;;
        let action_desc :=
          "Pop '" ++ popped_symbol ++ "'. Push '" ++
          (if truthy push_symbols then join "" push_symbols else "ε") ++ "'. " in
        let! self := get in
        log_append {|
          Input := "'" ++ symbol ++ "'";
          Action := action_desc;
          New_State := next_state;
          Stack := get_stack_visualization self;
          Result := Result_Success |} ;;
        modify (set_current_state next_state) ;;
        ret true
    | None =>
        log_append {|
          Input := "'" ++ symbol ++ "'";
          Action := "No transition for (" ++ current_state self ++ ", " ++
                    symbol ++ ", " ++ fmt_opt stack_top ++ ")";
          New_State := current_state self;
          Stack := get_stack_visualization self;
          Result := Result_Stuck |} ;;
        ret false
    end.

(** The loop [for symbol in sequence: if not self.step(symbol): return
    "Rejected"].  [Some v] is the early [return v]; [None] is the loop
    running to its end. *)
Fixpoint run_loop (sequence : list string) : M (option string) :=
  match sequence with
  | [] => ret None
  | symbol :: rest =>
      let! ok := step symbol in
      if negb ok then ret (Some "Rejected") else run_loop rest
  end.

Definition run (sequence : list string) : M string :=
  reset ;;
  let! self := get in
  log_append {|
    Input := "ε (start)";
    Action := "Initial configuration";
    New_State := current_state self;
    Stack := get_stack_visualization self;
    Result := Result_Start |} ;;
  let! early := run_loop sequence in
  match early with
  | Some verdict => ret verdict
  | None =>
      let! self := get in
      if decide (current_state self ∈ accept_states self)
      then ret "Accepted"
      else ret "Rejected"
  end.

(** ** The pizza-ordering configuration *)

Definition states_cfg : gset string := {[ "q_start"; "q_ordering"; "q_done" ]}.
Definition input_alphabet_cfg : gset string :=
  {[ "order"; "pizza"; "toppings"; "done"; "pay" ]}.
Definition stack_alphabet_cfg : gset string := {[ "O"; "P"; "T"; "Z0" ]}.
Definition start_state_cfg : string := "q_start".
Definition start_stack_symbol_cfg : string := "Z0".
Definition accept_states_cfg : gset string := {[ "q_done" ]}.

Definition transitions_cfg : gmap Key Rule :=
  list_to_map [
    (("q_start", "order", Some "Z0"), ("q_ordering", ["O"; "Z0"]));
    (("q_ordering", "pizza", Some "O"), ("q_ordering", ["P"; "O"]));
    (("q_ordering", "toppings", Some "P"), ("q_ordering", ["T"; "P"]));
    (("q_ordering", "done", Some "T"), ("q_ordering", []));
    (("q_ordering", "done", Some "P"), ("q_ordering", []));
    (("q_ordering", "pay", Some "O"), ("q_done", []))
  ].

(** [pizza_bot = PDASimulator(states, input_alphabet, ...)] *)
Definition pizza_bot : PDASimulator :=
  snd (__init__ states_cfg input_alphabet_cfg stack_alphabet_cfg transitions_cfg
         start_state_cfg start_stack_symbol_cfg accept_states_cfg).

(** A configuration with a rule for the empty stack: ["a"] pops the
    sentinel, and on the empty stack ["a"] pushes it back. *)
Definition drain_transitions : gmap Key Rule :=
  list_to_map [
    (("q", "a", Some "Z"), ("q", []));
    (("q", "a", None), ("q", ["Z"]))
  ].

Definition drain_bot : PDASimulator :=
  snd (__init__ {[ "q" ]} {[ "a" ]} {[ "Z" ]} drain_transitions "q" "Z" {[ "q" ]}).

(** ** Vocabulary of the properties *)

(** The seven attributes the constructor receives. *)
Definition definition_of (self : PDASimulator) :=
  (states self, input_alphabet self, stack_alphabet self, transitions self,
   start_state self, start_stack_symbol self, accept_states self).

Definition same_definition (s1 s2 : PDASimulator) : Prop :=
  definition_of s1 = definition_of s2.

(** No transition key has [None] as its stack-top component. *)
Definition no_absent_top (tr : gmap Key Rule) : Prop :=
  map_Forall (fun (k : Key) (_ : Rule) => is_Some (snd k)) tr.

(** The record appended by the branch of [step] for a symbol outside
    the alphabet. *)
Definition invalid_entry (self : PDASimulator) (symbol : string) : LogEntry := {|
  Input := "'" ++ symbol ++ "'";
  Action := "ERROR: Input not in alphabet.";
  New_State := current_state self;
  Stack := get_stack_visualization self;
  Result := Result_Halted |}.

(** The record appended by the branch of [step] that finds no transition. *)
Definition stuck_entry (self : PDASimulator) (symbol : string) : LogEntry := {|
  Input := "'" ++ symbol ++ "'";
  Action := "No transition for (" ++ current_state self ++ ", " ++
            symbol ++ ", " ++ fmt_opt (head (stack self)) ++ ")";
  New_State := current_state self;
  Stack := get_stack_visualization self;
  Result := Result_Stuck |}.

(** The object after a transition to [next_state] that popped [popped]
    and pushed [push_symbols] on [rest]. *)
Definition applied (self : PDASimulator) (symbol popped next_state : string)
    (push_symbols rest : list string) : PDASimulator :=
  let moved := set_stack (push_symbols ++ rest) self in
  set_current_state next_state
    (set_log (log self ++ [ {|
       Input := "'" ++ symbol ++ "'";
       Action := "Pop '" ++ popped ++ "'. Push '" ++
                 (if truthy push_symbols then join "" push_symbols else "ε") ++ "'. ";
       New_State := next_state;
       Stack := get_stack_visualization moved;
       Result := Result_Success |} ]) moved).

(** The four ways a call [step symbol] on [self] can end. *)
Inductive step_view (self : PDASimulator) (symbol : string)
  : (exn + bool) * PDASimulator -> Prop :=
| view_invalid :
    symbol ∉ input_alphabet self ->
    step_view self symbol
      (inr false, set_log (log self ++ [invalid_entry self symbol]) self)
| view_stuck :
    symbol ∈ input_alphabet self ->
    transitions self !! (current_state self, symbol, head (stack self)) = None ->
    step_view self symbol
      (inr false, set_log (log self ++ [stuck_entry self symbol]) self)
| view_applied top rest next_state push_symbols :
    symbol ∈ input_alphabet self ->
    stack self = top :: rest ->
    transitions self !! (current_state self, symbol, Some top)
      = Some (next_state, push_symbols) ->
    step_view self symbol
      (inr true, applied self symbol top next_state push_symbols rest)
| view_raise next_state push_symbols :
    symbol ∈ input_alphabet self ->
    stack self = [] ->
    transitions self !! (current_state self, symbol, None)
      = Some (next_state, push_symbols) ->
    step_view self symbol (inl IndexError, self).

(** The first two statements of [run]: the reset and the Start record. *)
Definition run_prologue : M unit :=
  reset ;;
  let! self := get in
  log_append {|
    Input := "ε (start)";
    Action := "Initial configuration";
    New_State := current_state self;
    Stack := get_stack_visualization self;
    Result := Result_Start |}.

(** The object as [run] finds it when it enters its loop. *)
Definition started (self : PDASimulator) : PDASimulator := snd (run_prologue self).

(** [consumed self sequence self']: fed to [self] in order, every symbol
    of [sequence] is processed by a call of [step] that returns [True],
    and the last of them leaves the object as [self']. *)
Inductive consumed : PDASimulator -> list string -> PDASimulator -> Prop :=
| consumed_nil self : consumed self [] self
| consumed_cons self symbol self1 rest self' :
    step symbol self = (inr true, self1) ->
    consumed self1 rest self' ->
    consumed self (symbol :: rest) self'.

(** The object at each passage of the loop of [run] over [sequence],
    started on [self]: before the first call of [step] and after each
    call made, in order.  No call is made after one that returned
    [False] or raised. *)
Fixpoint loop_points (sequence : list string) (self : PDASimulator)
  : list PDASimulator :=
  self ::
  match sequence with
  | [] => []
  | symbol :: rest =>
      match step symbol self with
      | (inr true, self') => loop_points rest self'
      | (_, self') => [self']
      end
  end.

Definition run_points (sequence : list string) (self : PDASimulator)
  : list PDASimulator :=
  loop_points sequence (started self).

(** The number of calls of [step] that [run sequence] makes on [self]. *)
Definition step_calls (sequence : list string) (self : PDASimulator) : nat :=
  pred (length (run_points sequence self)).

(** [self] carries the pizza-ordering configuration. *)
Definition is_pizza (self : PDASimulator) : Prop :=
  definition_of self =
  (states_cfg, input_alphabet_cfg, stack_alphabet_cfg, transitions_cfg,
   start_state_cfg, start_stack_symbol_cfg, accept_states_cfg).

(** The sentinel is on the stack, at the bottom and nowhere else. *)
Definition sentinel_at_bottom (self : PDASimulator) : Prop :=
  exists above : list string, stack self = (above ++ ["Z0"])%list /\ "Z0" ∉ above.

(** Follows the words of the specification (section 7), not the code:
    the conditions under which a constructor is said to accept its
    arguments.  The code has no counterpart. *)
Definition spec_valid_definition (states input_alphabet stack_alphabet : gset string)
    (transitions : gmap Key Rule) (start_state start_stack_symbol : string)
    (accept_states : gset string) : Prop :=
  start_state ∈ states /\
  start_stack_symbol ∈ stack_alphabet /\
  accept_states ⊆ states /\
  map_Forall (fun (k : Key) (r : Rule) =>
    fst (fst k) ∈ states /\ snd (fst k) ∈ input_alphabet /\
    (forall top, snd k = Some top -> top ∈ stack_alphabet) /\
    fst r ∈ states /\ Forall (fun x => x ∈ stack_alphabet) (snd r)) transitions.

(** ** Vocabulary of the further properties *)

(** The record [entry] shows the configuration of [self]: its state in
    the column ["New State"], its stack in the column ["Stack"]. *)
Definition describes (entry : LogEntry) (self : PDASimulator) : Prop :=
  New_State entry = current_state self /\
  Stack entry = get_stack_visualization self.

(** The column ["Result"] of the log. *)
Definition tags (self : PDASimulator) : list string := Result <$> log self.

(** How many times [a] occurs in [l]. *)
Definition occurrences (a : string) (l : list string) : nat :=
  length (filter (fun x => x = a) l).

(** The sequence [order (pizza toppings done done)^n pay]: an order of
    [n] pizzas, each with toppings. *)
Definition order_of (n : nat) : list string :=
  "order" :: (concat (replicate n ["pizza"; "toppings"; "done"; "done"]) ++ ["pay"])%list.

(** ** Tactics *)

(** Refutes [Hin], the membership of a string literal in a list that
    starts with other literals. *)
Ltac literal_not_in Hin :=
  repeat (apply elem_of_cons in Hin as [Hin|Hin]; [discriminate Hin|]);
  first [ contradiction | solve [inversion Hin] ].

(** Closes an equation between counts of literals in a list that starts
    with literals. *)
Ltac count_literals :=
  unfold occurrences; rewrite ?filter_cons, ?filter_nil;
  repeat case_decide; try congruence; simpl length; lia.

(** * Properties *)

(** ** How a call of [step] ends *)

Lemma step_invalid self symbol :
  symbol ∉ input_alphabet self ->
  step symbol self = (inr false, set_log (log self ++ [invalid_entry self symbol]) self).
Proof.
  intros Hout. unfold step, bind, get. simpl.
  destruct (decide (symbol ∉ input_alphabet self)) as [_|Hin]; [reflexivity|].
  contradiction.
Qed.

Lemma step_stuck self symbol :
  symbol ∈ input_alphabet self ->
  transitions self !! (current_state self, symbol, head (stack self)) = None ->
  step symbol self = (inr false, set_log (log self ++ [stuck_entry self symbol]) self).
Proof.
  intros Hin Hnone. unfold step, bind, get. simpl.
  destruct (decide (symbol ∉ input_alphabet self)) as [Hout|_]; [contradiction|].
  rewrite Hnone. reflexivity.
Qed.

Lemma step_raises self symbol next_state push_symbols :
  symbol ∈ input_alphabet self ->
  stack self = [] ->
  transitions self !! (current_state self, symbol, None) = Some (next_state, push_symbols) ->
  step symbol self = (inl IndexError, self).
Proof.
  intros Hin Hempty Hsome. unfold step, bind, get. simpl.
  destruct (decide (symbol ∉ input_alphabet self)) as [Hout|_]; [contradiction|].
  rewrite Hempty. simpl. rewrite Hsome.
  unfold stack_pop0, bind, get, raise. rewrite Hempty. reflexivity.
Qed.

(** The push loop: inserting the items of [l] one by one at index 0
    leaves them in reverse order on top of the old stack. *)
Lemma for_each_stack_insert0 (l : list string) self :
  for_each l stack_insert0 self = (inr tt, set_stack (rev l ++ stack self) self).
Proof.
  revert self. induction l as [|item l IH]; intros self.
  - destruct self; reflexivity.
  - simpl. unfold bind at 1. unfold stack_insert0 at 1, modify.
    rewrite IH. simpl. rewrite <- app_assoc. reflexivity.
Qed.

Lemma step_applied self symbol top rest next_state push_symbols :
  symbol ∈ input_alphabet self ->
  stack self = top :: rest ->
  transitions self !! (current_state self, symbol, Some top) = Some (next_state, push_symbols) ->
  step symbol self = (inr true, applied self symbol top next_state push_symbols rest).
Proof.
  intros Hin Hstack Hsome. unfold step, bind at 1, get at 1.
  destruct (decide (symbol ∉ input_alphabet self)) as [Hout|_]; [contradiction|].
  rewrite Hstack. simpl. rewrite Hsome.
  unfold bind at 1. unfold stack_pop0, bind at 1, get at 1. rewrite Hstack.
  unfold bind at 1, modify at 1, ret at 1.
  unfold bind at 1.
  destruct push_symbols as [|p ps].
  - reflexivity.
  - cbv [truthy]. rewrite for_each_stack_insert0.
    rewrite rev_involutive. reflexivity.
Qed.

(** Every call of [step] ends in one of the four ways. *)
Lemma step_cases self symbol : step_view self symbol (step symbol self).
Proof.
  destruct (decide (symbol ∈ input_alphabet self)) as [Hin|Hout].
  - destruct (transitions self !! (current_state self, symbol, head (stack self)))
      as [[next_state push_symbols]|] eqn:Hkey.
    + destruct (stack self) as [|top rest] eqn:Hstack; simpl in Hkey.
      * erewrite step_raises by eassumption. eapply view_raise; eassumption.
      * erewrite step_applied by eassumption. eapply view_applied; eassumption.
    + rewrite step_stuck by assumption. apply view_stuck; assumption.
  - rewrite step_invalid by assumption. apply view_invalid; assumption.
Qed.

Lemma step_same_definition self symbol :
  same_definition (snd (step symbol self)) self.
Proof. destruct (step_cases self symbol); reflexivity. Qed.

(** A call that returns has appended one record; a call that raises has
    left the object as it was. *)
Lemma step_log self symbol :
  match step symbol self with
  | (inr _, self') => exists entry : LogEntry, log self' = (log self ++ [entry])%list
  | (inl _, self') => self' = self
  end.
Proof. destruct (step_cases self symbol); simpl; eauto. Qed.

(** Without a rule for the empty stack, [step] never raises. *)
Lemma no_absent_top_lookup tr q a : no_absent_top tr -> tr !! (q, a, None) = None.
Proof.
  intros Hno. destruct (tr !! (q, a, None)) as [r|] eqn:Hk; [|reflexivity].
  apply Hno in Hk. simpl in Hk. destruct Hk as [x Hx]. discriminate.
Qed.

Lemma step_returns self symbol :
  no_absent_top (transitions self) ->
  exists ok, fst (step symbol self) = inr ok.
Proof.
  intros Hno. destruct (step_cases self symbol) as [| | |q p _ _ Hk]; simpl; eauto.
  rewrite no_absent_top_lookup in Hk by assumption. discriminate.
Qed.

(** ** The loop of [run] *)

Lemma run_unfold sequence self :
  run sequence self =
  match run_loop sequence (started self) with
  | (inl e, self') => (inl e, self')
  | (inr (Some verdict), self') => (inr verdict, self')
  | (inr None, self') =>
      (inr (if decide (current_state self' ∈ accept_states self')
            then "Accepted" else "Rejected"), self')
  end.
Proof.
  cbv [run started run_prologue bind reset get modify log_append snd].
  destruct (run_loop sequence _) as [[e|[verdict|]] self']; try reflexivity.
  destruct (decide _); reflexivity.
Qed.

Lemma started_eq self :
  started self =
  mkPDASimulator (states self) (input_alphabet self) (stack_alphabet self)
    (transitions self) (start_state self) (start_stack_symbol self)
    (accept_states self) (start_state self) [start_stack_symbol self]
    [ {| Input := "ε (start)"; Action := "Initial configuration";
         New_State := start_state self;
         Stack := "[" ++ start_stack_symbol self ++ "]";
         Result := Result_Start |} ].
Proof. reflexivity. Qed.

Lemma started_same_definition s1 s2 :
  same_definition s1 s2 -> started s1 = started s2.
Proof.
  unfold same_definition, definition_of. intros Heq.
  rewrite !started_eq. injection Heq as -> -> -> -> -> -> ->. reflexivity.
Qed.

Lemma run_loop_consumed sequence self self' :
  run_loop sequence self = (inr None, self') <-> consumed self sequence self'.
Proof.
  split.
  - revert self. induction sequence as [|symbol rest IH]; intros self Hrun.
    + injection Hrun as <-. constructor.
    + simpl in Hrun. unfold bind in Hrun.
      destruct (step symbol self) as [[e|[|]] self1] eqn:Hstep; simpl in Hrun;
        try discriminate.
      econstructor; eauto.
  - induction 1 as [self|self symbol self1 rest self' Hstep _ IH]; [reflexivity|].
    simpl. unfold bind. rewrite Hstep. exact IH.
Qed.

Lemma run_loop_app pre post self self1 :
  consumed self pre self1 ->
  run_loop (pre ++ post) self = run_loop post self1.
Proof.
  induction 1 as [self|self symbol self1 rest self' Hstep _ IH]; [reflexivity|].
  simpl. unfold bind. rewrite Hstep. exact IH.
Qed.

(** The three ways the loop can end: it runs through the sequence; or
    some call of [step], reached through calls that all returned
    [True], returns [False], and the loop is left at once with
    ["Rejected"]; or such a call raises. *)
Lemma run_loop_cases sequence self :
  (exists self', consumed self sequence self' /\
     run_loop sequence self = (inr None, self')) \/
  (exists pre symbol post self1 self2,
     sequence = (pre ++ symbol :: post)%list /\ consumed self pre self1 /\
     step symbol self1 = (inr false, self2) /\
     run_loop sequence self = (inr (Some "Rejected"), self2)) \/
  (exists pre symbol post self1,
     sequence = (pre ++ symbol :: post)%list /\ consumed self pre self1 /\
     step symbol self1 = (inl IndexError, self1) /\
     run_loop sequence self = (inl IndexError, self1)).
Proof.
  revert self. induction sequence as [|symbol rest IH]; intros self.
  - left. exists self. split; [constructor|reflexivity].
  - simpl. unfold bind.
    pose proof (step_log self symbol) as Hlog.
    destruct (step symbol self) as [[[]|[|]] self1] eqn:Hstep; simpl.
    + subst self1. right; right. exists [], symbol, rest, self.
      repeat split; try assumption. constructor.
    + destruct (IH self1) as
        [(self' & Hc & Hr)
        |[(pre & a & post & s1 & s2 & -> & Hc & Hs & Hr)
         |(pre & a & post & s1 & -> & Hc & Hs & Hr)]].
      * left. exists self'. split; [econstructor; eauto|exact Hr].
      * right; left. exists (symbol :: pre), a, post, s1, s2.
        repeat split; try assumption. econstructor; eauto.
      * right; right. exists (symbol :: pre), a, post, s1.
        repeat split; try assumption. econstructor; eauto.
    + right; left. exists [], symbol, rest, self, self1.
      repeat split; try assumption. constructor.
Qed.

Lemma consumed_same_definition self sequence self' :
  consumed self sequence self' -> same_definition self' self.
Proof.
  induction 1 as [self|self symbol self1 rest self' Hstep _ IH]; [reflexivity|].
  unfold same_definition in *. rewrite IH.
  pose proof (step_same_definition self symbol) as Hd. rewrite Hstep in Hd. exact Hd.
Qed.

Lemma run_loop_same_definition sequence self :
  same_definition (snd (run_loop sequence self)) self.
Proof.
  destruct (run_loop_cases sequence self) as
    [(self' & Hc & Hr)
    |[(pre & a & post & s1 & s2 & _ & Hc & Hs & Hr)
     |(pre & a & post & s1 & _ & Hc & Hs & Hr)]]; rewrite Hr; simpl.
  - eapply consumed_same_definition; eassumption.
  - pose proof (step_same_definition s1 a) as Hd. rewrite Hs in Hd.
    unfold same_definition in *. simpl in Hd. rewrite Hd.
    eapply consumed_same_definition; eassumption.
  - eapply consumed_same_definition; eassumption.
Qed.

Lemma run_state sequence self :
  snd (run sequence self) = snd (run_loop sequence (started self)).
Proof.
  rewrite run_unfold.
  destruct (run_loop sequence (started self)) as [[e|[verdict|]] self']; reflexivity.
Qed.

Lemma run_same_definition sequence self :
  same_definition (snd (run sequence self)) self.
Proof.
  rewrite run_state. unfold same_definition.
  rewrite (run_loop_same_definition sequence (started self)). reflexivity.
Qed.

(** The acceptance law, for every configuration. *)
Lemma run_accepted_iff sequence self :
  fst (run sequence self) = inr "Accepted" <->
  exists self', consumed (started self) sequence self' /\
                current_state self' ∈ accept_states self'.
Proof.
  rewrite run_unfold. split.
  - destruct (run_loop sequence (started self)) as [[e|[verdict|]] self'] eqn:Hloop;
      simpl; intros Hacc; try discriminate.
    + destruct (run_loop_cases sequence (started self)) as
        [(s' & _ & Hr)
        |[(pre & a & post & s1 & s2 & _ & _ & _ & Hr)
         |(pre & a & post & s1 & _ & _ & _ & Hr)]];
        rewrite Hr in Hloop; try discriminate.
      injection Hloop as <- _. discriminate.
    + exists self'. split; [apply run_loop_consumed; exact Hloop|].
      destruct (decide (current_state self' ∈ accept_states self')); [assumption|discriminate].
  - intros (self' & Hc & Hin). apply run_loop_consumed in Hc. rewrite Hc. simpl.
    destruct (decide _); [reflexivity|contradiction].
Qed.

(** When [run] returns, it returns one of the two verdicts. *)
Lemma run_verdicts sequence self verdict :
  fst (run sequence self) = inr verdict ->
  verdict = "Accepted" \/ verdict = "Rejected".
Proof.
  rewrite run_unfold.
  destruct (run_loop_cases sequence (started self)) as
    [(s' & _ & Hr)
    |[(pre & a & post & s1 & s2 & _ & _ & _ & Hr)
     |(pre & a & post & s1 & _ & _ & _ & Hr)]]; rewrite Hr; simpl.
  - destruct (decide _); intros [= <-]; auto.
  - intros [= <-]; auto.
  - discriminate.
Qed.

(** Without a rule for the empty stack, [run] returns. *)
Lemma run_returns sequence self :
  no_absent_top (transitions self) ->
  exists verdict, fst (run sequence self) = inr verdict.
Proof.
  intros Hno. rewrite run_unfold.
  destruct (run_loop_cases sequence (started self)) as
    [(s' & _ & Hr)
    |[(pre & a & post & s1 & s2 & _ & _ & _ & Hr)
     |(pre & a & post & s1 & _ & Hc & Hs & Hr)]]; rewrite Hr; simpl; eauto.
  apply consumed_same_definition in Hc.
  assert (Htr : transitions s1 = transitions self).
  { unfold same_definition, definition_of in Hc. rewrite started_eq in Hc.
    simpl in Hc. congruence. }
  destruct (step_returns s1 a) as [ok Hok]; [rewrite Htr; exact Hno|].
  rewrite Hs in Hok. discriminate.
Qed.

(** ** The trace *)

Lemma loop_points_last sequence self :
  last (loop_points sequence self) = Some (snd (run_loop sequence self)).
Proof.
  revert self. induction sequence as [|symbol rest IH]; intros self; [reflexivity|].
  simpl. unfold bind.
  destruct (step symbol self) as [[e|[|]] self1]; try reflexivity.
  rewrite last_cons, IH. reflexivity.
Qed.

(** The trace has one record more than the loop has made calls of
    [step], unless the last call raised: that one left no record. *)
Lemma loop_log_length sequence self :
  match run_loop sequence self with
  | (inr _, self') =>
      length (log self') = length (log self) + pred (length (loop_points sequence self))
  | (inl _, self') =>
      S (length (log self')) = length (log self) + pred (length (loop_points sequence self))
  end.
Proof.
  revert self. induction sequence as [|symbol rest IH]; intros self.
  - simpl. lia.
  - simpl. unfold bind. pose proof (step_log self symbol) as Hlog.
    destruct (step symbol self) as [[e|[|]] self1]; simpl.
    + subst self1. lia.
    + destruct Hlog as [entry Hlog]. specialize (IH self1).
      assert (Hpos : 0 < length (loop_points rest self1)) by (destruct rest; simpl; lia).
      rewrite Hlog, length_app in IH. simpl in IH.
      destruct (run_loop rest self1) as [[e|v] self']; lia.
    + destruct Hlog as [entry ->]. rewrite length_app. simpl. lia.
Qed.

Lemma run_log_length sequence self verdict :
  fst (run sequence self) = inr verdict ->
  length (log (snd (run sequence self))) = S (step_calls sequence self).
Proof.
  rewrite run_state. rewrite run_unfold. unfold step_calls, run_points.
  pose proof (loop_log_length sequence (started self)) as Hlen.
  destruct (run_loop sequence (started self)) as [[e|v] self']; simpl.
  - destruct e; discriminate.
  - intros _. rewrite Hlen, started_eq. reflexivity.
Qed.

(** ** The pizza-ordering configuration *)

Lemma pizza_rules q a o q' push :
  transitions_cfg !! (q, a, o) = Some (q', push) ->
  (q, a, o, q', push) ∈
    [ ("q_start", "order", Some "Z0", "q_ordering", ["O"; "Z0"]);
      ("q_ordering", "pizza", Some "O", "q_ordering", ["P"; "O"]);
      ("q_ordering", "toppings", Some "P", "q_ordering", ["T"; "P"]);
      ("q_ordering", "done", Some "T", "q_ordering", []);
      ("q_ordering", "done", Some "P", "q_ordering", []);
      ("q_ordering", "pay", Some "O", "q_done", []) ].
Proof.
  intros Hk. apply elem_of_list_to_map_2 in Hk.
  repeat (apply elem_of_cons in Hk as [Hk|Hk];
          [injection Hk as -> -> -> -> ->; set_solver|]).
  inversion Hk.
Qed.

Lemma pizza_no_absent_top : no_absent_top transitions_cfg.
Proof.
  intros [[q a] o] [q' push] Hk. apply pizza_rules in Hk. simpl.
  repeat (apply elem_of_cons in Hk as [Hk|Hk]; [injection Hk as -> -> -> -> ->; eauto|]).
  inversion Hk.
Qed.

Lemma pizza_bot_is_pizza : is_pizza pizza_bot.
Proof. reflexivity. Qed.

Lemma is_pizza_same s1 s2 : same_definition s1 s2 -> is_pizza s2 -> is_pizza s1.
Proof. unfold same_definition, is_pizza. congruence. Qed.

Lemma is_pizza_fields self :
  is_pizza self ->
  input_alphabet self = input_alphabet_cfg /\ transitions self = transitions_cfg /\
  start_state self = start_state_cfg /\ start_stack_symbol self = start_stack_symbol_cfg /\
  accept_states self = accept_states_cfg.
Proof. unfold is_pizza, definition_of. intros [= _ -> _ -> -> -> ->]. auto. Qed.

(** Every call of [step] keeps the sentinel at the bottom of the stack. *)
Lemma pizza_step_sentinel self symbol :
  is_pizza self -> sentinel_at_bottom self ->
  sentinel_at_bottom (snd (step symbol self)).
Proof.
  intros Hpizza (above & Hstack & Hfresh).
  destruct (step_cases self symbol) as [| |top rest q' push _ Htop Hk|];
    simpl; try (exists above; split; assumption).
  apply is_pizza_fields in Hpizza as (_ & Htr & _). rewrite Htr in Hk.
  apply pizza_rules in Hk. unfold sentinel_at_bottom, applied. simpl.
  rewrite Hstack in Htop.
  destruct above as [|x above']; simpl in Htop; inversion Htop; subst top rest;
    clear Htop.
  - repeat (apply elem_of_cons in Hk as [Hk|Hk];
            [try discriminate Hk; injection Hk as _ _ -> ->|]).
    + exists ["O"]. split; [reflexivity|]. intros Hin. literal_not_in Hin.
    + inversion Hk.
  - apply not_elem_of_cons in Hfresh as [Hx Hab].
    repeat (apply elem_of_cons in Hk as [Hk|Hk];
            [injection Hk; intros; subst;
             first [ congruence
                   | eexists (_ ++ above')%list; split;
                     [rewrite <- app_assoc; reflexivity
                     |simpl; intros Hin; literal_not_in Hin] ]|]).
    inversion Hk.
Qed.

Lemma pizza_loop_points sequence self :
  is_pizza self -> sentinel_at_bottom self ->
  Forall (fun point => is_pizza point /\ sentinel_at_bottom point)
         (loop_points sequence self).
Proof.
  revert self. induction sequence as [|symbol rest IH]; intros self Hp Hs; simpl.
  - repeat constructor; assumption.
  - pose proof (pizza_step_sentinel self symbol Hp Hs) as Hs1.
    pose proof (step_same_definition self symbol) as Hd.
    apply is_pizza_same in Hd; [|exact Hp].
    constructor; [split; assumption|].
    destruct (step symbol self) as [[e|[|]] self1]; simpl in *.
    + repeat constructor; assumption.
    + apply IH; assumption.
    + repeat constructor; assumption.
Qed.

Lemma sentinel_at_bottom_stack self :
  sentinel_at_bottom self ->
  stack self <> [] /\ 0 < length (stack self) /\ last (stack self) = Some "Z0".
Proof.
  intros (above & -> & _). rewrite length_app, last_snoc. simpl.
  repeat split; [|lia]. destruct above; discriminate.
Qed.

Lemma pizza_started self :
  is_pizza self -> is_pizza (started self) /\ sentinel_at_bottom (started self).
Proof.
  intros Hp. pose proof (is_pizza_fields self Hp) as (_ & _ & _ & Hz & _). split.
  - exact Hp.
  - exists []. rewrite started_eq. simpl. rewrite Hz. split; [reflexivity|set_solver].
Qed.

(** The accept state has no outgoing transition. *)
Lemma pizza_q_done_stuck self symbol :
  is_pizza self -> current_state self = "q_done" ->
  exists self', step symbol self = (inr false, self').
Proof.
  intros Hp Hq. apply is_pizza_fields in Hp as (_ & Htr & _).
  destruct (step_cases self symbol) as [| |top rest q' push _ _ Hk|q' push _ _ Hk];
    eauto; rewrite Htr, Hq in Hk; apply pizza_rules in Hk;
    repeat (apply elem_of_cons in Hk as [Hk|Hk]; [discriminate|]); inversion Hk.
Qed.

(** * The claims *)

(** C1 (code defect).  The claim: for every configuration and every
    sequence, [run] returns ["Accepted"] exactly when every symbol is
    processed by a successful step and the final state is an accept
    state, and returns ["Rejected"] in every other case.  On the
    configuration [drain_bot] and the sequence [a a] the second call of
    [step] finds the stack empty, finds the rule keyed on the absent
    top, and pops: not every symbol is processed by a successful step,
    yet [run] does not return ["Rejected"]; it raises [IndexError]. *)
Theorem run_drain_raises :
  fst (run ["a"; "a"] drain_bot) = inl IndexError /\
  fst (run ["a"; "a"] drain_bot) <> inr "Rejected" /\
  ~ (exists self', consumed (started drain_bot) ["a"; "a"] self').
Proof.
  assert (Hfst : fst (run ["a"; "a"] drain_bot) = inl IndexError)
    by (vm_compute; reflexivity).
  split; [exact Hfst|]. split.
  - rewrite Hfst. discriminate.
  - intros [self' Hc]. apply run_loop_consumed in Hc.
    rewrite run_unfold, Hc in Hfst. discriminate Hfst.
Qed.

(** C2.  When the stack is [top :: rest], the symbol is in the input
    alphabet and the transitions map [(current_state, symbol, top)] to
    [(next_state, push_seq)], [step] returns [True]; afterwards the
    stack is [push_seq] followed by [rest] (one symbol popped, the
    elements of [push_seq] on top in their order, nothing pushed when
    [push_seq] is empty) and the current state is [next_state]. *)
Theorem step_applies_transition self symbol top rest next_state push_seq :
  stack self = top :: rest ->
  symbol ∈ input_alphabet self ->
  transitions self !! (current_state self, symbol, head (stack self))
    = Some (next_state, push_seq) ->
  exists self',
    step symbol self = (inr true, self') /\
    stack self' = (push_seq ++ rest)%list /\
    (forall i x, push_seq !! i = Some x -> stack self' !! i = Some x) /\
    (forall i, stack self' !! (length push_seq + i) = stack self !! (1 + i)) /\
    (push_seq = [] -> stack self' = rest) /\
    current_state self' = next_state.
Proof.
  intros Hstack Hin Hk. rewrite Hstack in Hk. simpl in Hk.
  exists (applied self symbol top next_state push_seq rest).
  split; [apply step_applied; assumption|].
  simpl. repeat split.
  - intros i x Hi. apply lookup_app_l_Some. exact Hi.
  - intros i. rewrite Hstack. simpl. rewrite lookup_app_r by lia.
    f_equal. lia.
  - intros ->. reflexivity.
Qed.

(** The first step of a pizza order: [order] on the sentinel. *)
Lemma step_applies_transition_witness :
  exists self',
    step "order" (started pizza_bot) = (inr true, self') /\
    stack self' = (["O"; "Z0"] ++ [])%list /\
    (forall i x, ["O"; "Z0"] !! i = Some x -> stack self' !! i = Some x) /\
    (forall i, stack self' !! (length ["O"; "Z0"] + i)
               = stack (started pizza_bot) !! (1 + i)) /\
    (["O"; "Z0"] = [] -> stack self' = []) /\
    current_state self' = "q_ordering".
Proof.
  apply (step_applies_transition (started pizza_bot) "order" "Z0" []
           "q_ordering" ["O"; "Z0"]).
  - reflexivity.
  - apply (bool_decide_unpack _). vm_compute. exact I.
  - vm_compute. reflexivity.
Defined.

(** C3.  When [step] takes the branch for a symbol outside the input
    alphabet, or the branch for a missing transition, it returns
    [False], and the current state and the stack are after the call
    what they were before it; the object differs by one appended
    record only. *)
Theorem step_halting_branches_frame self symbol :
  symbol ∉ input_alphabet self \/
  (symbol ∈ input_alphabet self /\
   transitions self !! (current_state self, symbol, head (stack self)) = None) ->
  exists self' entry,
    step symbol self = (inr false, self') /\
    current_state self' = current_state self /\
    stack self' = stack self /\
    self' = set_log (log self ++ [entry]) self /\
    (Result entry = Result_Halted \/ Result entry = Result_Stuck).
Proof.
  intros [Hout|[Hin Hnone]].
  - exists (set_log (log self ++ [invalid_entry self symbol]) self),
           (invalid_entry self symbol).
    rewrite step_invalid by assumption. simpl. auto 6.
  - exists (set_log (log self ++ [stuck_entry self symbol]) self),
           (stuck_entry self symbol).
    rewrite step_stuck by assumption. simpl. auto 6.
Qed.

(** [pizza] before any order: no transition from the sentinel. *)
Lemma step_halting_branches_frame_witness :
  exists self' entry,
    step "pizza" (started pizza_bot) = (inr false, self') /\
    current_state self' = current_state (started pizza_bot) /\
    stack self' = stack (started pizza_bot) /\
    self' = set_log (log (started pizza_bot) ++ [entry]) (started pizza_bot) /\
    (Result entry = Result_Halted \/ Result entry = Result_Stuck).
Proof.
  apply (step_halting_branches_frame (started pizza_bot) "pizza").
  right. split.
  - apply (bool_decide_unpack _). vm_compute. exact I.
  - vm_compute. reflexivity.
Defined.

(** C4 (code defect).  The claim: every call of [step] appends exactly
    one record, so the trace of a run has one record more than the
    number of calls of [step] made.  On [drain_bot], after the run of
    [a] the stack is empty; the next call of [step] with [a] raises
    [IndexError] out of the pop and leaves the object, and so the log,
    as it was.  The run of [a a] makes two calls of [step] and leaves a
    trace of two records, not three. *)
Theorem step_drain_appends_nothing :
  stack (snd (run ["a"] drain_bot)) = [] /\
  step "a" (snd (run ["a"] drain_bot)) = (inl IndexError, snd (run ["a"] drain_bot)) /\
  step_calls ["a"; "a"] drain_bot = 2 /\
  length (log (snd (run ["a"; "a"] drain_bot))) = 2.
Proof.
  assert (Hstack : stack (snd (run ["a"] drain_bot)) = [])
    by (vm_compute; reflexivity).
  split; [exact Hstack|]. split; [|split; vm_compute; reflexivity].
  apply (step_raises _ _ "q" ["Z"]).
  - apply (bool_decide_unpack _). vm_compute. exact I.
  - exact Hstack.
  - vm_compute. reflexivity.
Qed.

(** C5 (as amended).  The constructor checks nothing: whatever its
    seven arguments are, it returns normally, and the object it yields
    holds the arguments as given, with the current state the start
    state, the stack holding the start stack symbol alone, and an empty
    log. *)
Theorem init_stores_arguments (states input_alphabet stack_alphabet : gset string)
    (transitions : gmap Key Rule) (start_state start_stack_symbol : string)
    (accept_states : gset string) :
  __init__ states input_alphabet stack_alphabet transitions
           start_state start_stack_symbol accept_states
  = (inr tt,
     mkPDASimulator states input_alphabet stack_alphabet transitions
       start_state start_stack_symbol accept_states
       start_state [start_stack_symbol] []).
Proof. reflexivity. Qed.

(** C5, the claim as stated fails: it is not so that the constructor
    raises whenever its arguments are not a valid definition.  The
    pizza configuration with a start state outside [states] is built
    without an exception. *)
Lemma init_accepts_invalid_definition :
  ~ (forall (states input_alphabet stack_alphabet : gset string)
            (transitions : gmap Key Rule) (start_state start_stack_symbol : string)
            (accept_states : gset string),
       ~ spec_valid_definition states input_alphabet stack_alphabet transitions
           start_state start_stack_symbol accept_states ->
       exists e, fst (__init__ states input_alphabet stack_alphabet transitions
                        start_state start_stack_symbol accept_states) = inl e).
Proof.
  intros Hraise.
  destruct (Hraise states_cfg input_alphabet_cfg stack_alphabet_cfg transitions_cfg
              "q_begin" start_stack_symbol_cfg accept_states_cfg) as [e He].
  - intros (Hstart & _). revert Hstart.
    apply (bool_decide_unpack _). vm_compute. exact I.
  - cbv [__init__ reset bind get modify fst] in He. discriminate He.
Qed.

(** C6.  With the pizza-ordering configuration, for every input
    sequence, each time the loop of [run] is about to call [step] and
    after each call it made, the stack is not empty, its length is
    positive, and the sentinel [Z0] is its bottom element: the one
    transition that pops [Z0] pushes it back in the same call.  The
    last of these points is the object as [run] leaves it. *)
Theorem pizza_stack_never_empty self sequence :
  is_pizza self ->
  Forall (fun point =>
            stack point <> [] /\ 0 < length (stack point) /\
            last (stack point) = Some "Z0")
         (run_points sequence self) /\
  last (run_points sequence self) = Some (snd (run sequence self)) /\
  (forall q a q' push,
     transitions self !! (q, a, Some "Z0") = Some (q', push) -> push = ["O"; "Z0"]).
Proof.
  intros Hp. split; [|split].
  - destruct (pizza_started self Hp) as [Hp0 Hs0].
    eapply Forall_impl; [apply pizza_loop_points; eassumption|].
    intros point [_ Hs]. apply sentinel_at_bottom_stack. exact Hs.
  - unfold run_points. rewrite loop_points_last, run_state. reflexivity.
  - apply is_pizza_fields in Hp as (_ & -> & _). intros q a q' push Hr.
    apply pizza_rules in Hr.
    repeat (apply elem_of_cons in Hr as [Hr|Hr]; [try discriminate Hr; congruence|]).
    inversion Hr.
Qed.

(** An order paid twice, on the object the script builds. *)
Lemma pizza_stack_never_empty_witness :
  Forall (fun point =>
            stack point <> [] /\ 0 < length (stack point) /\
            last (stack point) = Some "Z0")
         (run_points ["order"; "pizza"; "done"; "pay"; "pay"] pizza_bot) /\
  last (run_points ["order"; "pizza"; "done"; "pay"; "pay"] pizza_bot)
    = Some (snd (run ["order"; "pizza"; "done"; "pay"; "pay"] pizza_bot)) /\
  (forall q a q' push,
     transitions pizza_bot !! (q, a, Some "Z0") = Some (q', push) -> push = ["O"; "Z0"]).
Proof.
  apply (pizza_stack_never_empty pizza_bot ["order"; "pizza"; "done"; "pay"; "pay"]).
  reflexivity.
Defined.

(** C7.  With the pizza-ordering configuration, the run of [order pizza
    toppings done done pay] returns ["Accepted"]; after the call of
    [step] for the first symbol the stack is [O, Z0] from the top, and
    the record of that call shows it so; the trace has seven records, a
    Start record followed by one record per symbol. *)
Theorem pizza_simple_order_accepted :
  let sequence := ["order"; "pizza"; "toppings"; "done"; "done"; "pay"] in
  fst (run sequence pizza_bot) = inr "Accepted" /\
  stack <$> run_points sequence pizza_bot !! 1 = Some ["O"; "Z0"] /\
  stack (snd (step "order" (started pizza_bot))) = ["O"; "Z0"] /\
  Stack <$> log (snd (run sequence pizza_bot)) !! 1 = Some "[O | Z0]" /\
  length (log (snd (run sequence pizza_bot))) = 7 /\
  Result <$> log (snd (run sequence pizza_bot))
    = Result_Start :: replicate (length sequence) Result_Success.
Proof. vm_compute. repeat split; reflexivity. Qed.

(** C8.  The result of [run], verdict or exception together with the
    whole object it leaves and so its trace, depends on the seven
    configuration attributes and the sequence only: two objects with
    the same configuration give equal results, and so does the same
    object after any earlier run or after a reset. *)
Theorem run_depends_on_definition_only (s1 s2 : PDASimulator) sequence :
  same_definition s1 s2 ->
  run sequence s1 = run sequence s2 /\
  (forall earlier, run sequence (snd (run earlier s1)) = run sequence s2) /\
  run sequence (snd (reset s1)) = run sequence s2 /\
  run sequence (snd (run sequence s1)) = run sequence s1.
Proof.
  intros Hsame.
  assert (Hrun : forall a b, same_definition a b -> run sequence a = run sequence b).
  { intros a b Hab. rewrite !run_unfold, (started_same_definition a b Hab). reflexivity. }
  split; [|split; [|split]].
  - apply Hrun, Hsame.
  - intros earlier. apply Hrun. unfold same_definition in *.
    rewrite (run_same_definition earlier s1). exact Hsame.
  - apply Hrun. unfold same_definition in *. rewrite <- Hsame. reflexivity.
  - apply Hrun, run_same_definition.
Qed.

(** A fresh object and one that already holds a Stuck record. *)
Lemma run_depends_on_definition_only_witness :
  run ["order"; "pay"] pizza_bot
    = run ["order"; "pay"] (snd (step "pizza" pizza_bot)) /\
  (forall earlier,
     run ["order"; "pay"] (snd (run earlier pizza_bot))
       = run ["order"; "pay"] (snd (step "pizza" pizza_bot))) /\
  run ["order"; "pay"] (snd (reset pizza_bot))
    = run ["order"; "pay"] (snd (step "pizza" pizza_bot)) /\
  run ["order"; "pay"] (snd (run ["order"; "pay"] pizza_bot))
    = run ["order"; "pay"] pizza_bot.
Proof.
  apply (run_depends_on_definition_only pizza_bot (snd (step "pizza" pizza_bot))
           ["order"; "pay"]).
  symmetry. apply step_same_definition.
Defined.

(** C9 (as amended).  With the pizza-ordering configuration, when the
    run of [s] returns ["Accepted"], the run of [s] followed by any
    non-empty [t] returns ["Rejected"]: [s] is consumed and leaves the
    object in [q_done], which has no outgoing transition, and there the
    call of [step] for the first symbol of [t] returns [False].  Its
    record, the last of the trace, is tagged Stuck when that symbol is
    in the input alphabet and Halted when it is not. *)
Theorem pizza_extension_rejected self (s t : list string) :
  is_pizza self ->
  fst (run s self) = inr "Accepted" ->
  t <> [] ->
  fst (run (s ++ t) self) = inr "Rejected" /\
  exists self1,
    consumed (started self) s self1 /\ current_state self1 = "q_done" /\
    (forall a top, transitions self1 !! ("q_done", a, top) = None) /\
    step (hd "" t) self1
      = (inr false,
         set_log (log self1 ++
                    [if decide (hd "" t ∈ input_alphabet_cfg)
                     then stuck_entry self1 (hd "" t)
                     else invalid_entry self1 (hd "" t)]) self1) /\
    snd (run (s ++ t) self) = snd (step (hd "" t) self1) /\
    Result <$> last (log (snd (run (s ++ t) self)))
      = Some (if decide (hd "" t ∈ input_alphabet_cfg)
              then Result_Stuck else Result_Halted).
Proof.
  intros Hp Hacc Ht.
  apply run_accepted_iff in Hacc as (self1 & Hc & Hin).
  assert (Hp1 : is_pizza self1).
  { eapply is_pizza_same; [eapply consumed_same_definition; exact Hc|].
    apply pizza_started, Hp. }
  pose proof (is_pizza_fields self1 Hp1) as (Hia & Htr & _ & _ & Hac).
  assert (Hq : current_state self1 = "q_done").
  { rewrite Hac in Hin. unfold accept_states_cfg in Hin.
    apply elem_of_singleton in Hin. exact Hin. }
  assert (Hnone : forall a top, transitions self1 !! ("q_done", a, top) = None).
  { intros a top. rewrite Htr.
    destruct (transitions_cfg !! _) as [[q' push]|] eqn:Hr; [|reflexivity].
    apply pizza_rules in Hr.
    repeat (apply elem_of_cons in Hr as [Hr|Hr]; [discriminate Hr|]). inversion Hr. }
  destruct t as [|symbol t']; [contradiction|]. simpl hd.
  assert (Hstep :
    step symbol self1
    = (inr false,
       set_log (log self1 ++
                  [if decide (symbol ∈ input_alphabet_cfg)
                   then stuck_entry self1 symbol
                   else invalid_entry self1 symbol]) self1)).
  { destruct (decide (symbol ∈ input_alphabet_cfg)) as [Hsym|Hsym].
    - apply step_stuck; [rewrite Hia; exact Hsym|]. rewrite Hq. apply Hnone.
    - apply step_invalid. rewrite Hia. exact Hsym. }
  assert (Hloop : run_loop (s ++ symbol :: t') (started self)
                  = (inr (Some "Rejected"), snd (step symbol self1))).
  { rewrite (run_loop_app s (symbol :: t') _ self1 Hc).
    simpl. unfold bind. rewrite Hstep. reflexivity. }
  split; [rewrite run_unfold, Hloop; reflexivity|].
  exists self1. split; [assumption|]. split; [assumption|]. split; [assumption|].
  split; [exact Hstep|].
  assert (Hsnd : snd (run (s ++ symbol :: t') self) = snd (step symbol self1))
    by (rewrite run_state, Hloop; reflexivity).
  split; [exact Hsnd|].
  rewrite Hsnd, Hstep. cbn [snd log set_log]. rewrite last_snoc.
  destruct (decide (symbol ∈ input_alphabet_cfg)); reflexivity.
Qed.

(** The shortest accepted order, followed by one more symbol. *)
Lemma pizza_extension_rejected_witness :
  fst (run (["order"; "pay"] ++ ["pizza"]) pizza_bot) = inr "Rejected" /\
  exists self1,
    consumed (started pizza_bot) ["order"; "pay"] self1 /\
    current_state self1 = "q_done" /\
    (forall a top, transitions self1 !! ("q_done", a, top) = None) /\
    step (hd "" ["pizza"]) self1
      = (inr false,
         set_log (log self1 ++
                    [if decide (hd "" ["pizza"] ∈ input_alphabet_cfg)
                     then stuck_entry self1 (hd "" ["pizza"])
                     else invalid_entry self1 (hd "" ["pizza"])]) self1) /\
    snd (run (["order"; "pay"] ++ ["pizza"]) pizza_bot)
      = snd (step (hd "" ["pizza"]) self1) /\
    Result <$> last (log (snd (run (["order"; "pay"] ++ ["pizza"]) pizza_bot)))
      = Some (if decide (hd "" ["pizza"] ∈ input_alphabet_cfg)
              then Result_Stuck else Result_Halted).
Proof.
  apply (pizza_extension_rejected pizza_bot ["order"; "pay"] ["pizza"]).
  - reflexivity.
  - vm_compute. reflexivity.
  - discriminate.
Defined.

(** C9, the claim as stated fails: the first symbol of the extension
    does not always produce a Stuck outcome.  After the accepted order
    [order pay], the symbol [hello] is outside the input alphabet; the
    run is rejected, but the record of that step, the last of the
    trace, is tagged Halted. *)
Lemma pizza_extension_not_always_stuck :
  ~ (forall s t : list string,
       fst (run s pizza_bot) = inr "Accepted" ->
       t <> [] ->
       fst (run (s ++ t) pizza_bot) = inr "Rejected" /\
       Result <$> last (log (snd (run (s ++ t) pizza_bot))) = Some Result_Stuck).
Proof.
  intros Hstuck.
  destruct (Hstuck ["order"; "pay"] ["hello"]) as [_ Htag].
  - vm_compute. reflexivity.
  - discriminate.
  - vm_compute in Htag. discriminate Htag.
Qed.

(** C10 (as amended).  The peek on an empty stack yields the absent
    marker.  For a configuration none of whose transition keys has the
    absent marker as stack top, a call of [step] on an empty stack
    returns [False] without a pop and without an exception: it takes
    the branch for a missing transition when the symbol is in the input
    alphabet, and the branch for an invalid symbol when it is not.  In
    both the object differs by the one appended record only. *)
Theorem step_on_empty_stack self symbol :
  no_absent_top (transitions self) ->
  stack self = [] ->
  head (stack self) = None /\
  step symbol self =
    (inr false,
     set_log (log self ++
                [if decide (symbol ∈ input_alphabet self)
                 then stuck_entry self symbol
                 else invalid_entry self symbol]) self).
Proof.
  intros Hno Hempty. split; [rewrite Hempty; reflexivity|].
  destruct (decide (symbol ∈ input_alphabet self)) as [Hin|Hout].
  - apply step_stuck; [assumption|].
    rewrite Hempty. simpl. apply no_absent_top_lookup, Hno.
  - apply step_invalid, Hout.
Qed.

(** The pizza object with its stack emptied by hand. *)
Lemma step_on_empty_stack_witness :
  head (stack (set_stack [] pizza_bot)) = None /\
  step "pay" (set_stack [] pizza_bot) =
    (inr false,
     set_log (log (set_stack [] pizza_bot) ++
                [if decide ("pay" ∈ input_alphabet (set_stack [] pizza_bot))
                 then stuck_entry (set_stack [] pizza_bot) "pay"
                 else invalid_entry (set_stack [] pizza_bot) "pay"])
             (set_stack [] pizza_bot)).
Proof.
  apply (step_on_empty_stack (set_stack [] pizza_bot) "pay").
  - apply (bool_decide_unpack _). vm_compute. exact I.
  - reflexivity.
Defined.

(** C10, the claim as stated fails: on an empty stack [step] does not
    always take the branch for a missing transition.  With the pizza
    configuration and the symbol [hello], which is outside the input
    alphabet, the record appended is the one of the invalid-symbol
    branch. *)
Lemma step_on_empty_stack_not_always_stuck :
  ~ (forall self symbol,
       no_absent_top (transitions self) ->
       stack self = [] ->
       exists self',
         step symbol self = (inr false, self') /\
         Result <$> last (log self') = Some Result_Stuck).
Proof.
  intros Hstuck.
  destruct (Hstuck (set_stack [] pizza_bot) "hello") as (self' & Hstep & Htag).
  - exact pizza_no_absent_top.
  - reflexivity.
  - rewrite step_invalid in Hstep.
    + injection Hstep as <-. cbn [log set_log] in Htag. discriminate Htag.
    + apply (bool_decide_unpack _). vm_compute. exact I.
Qed.

(** * Further properties of the engine *)

(** ** Inversion of the outcomes of [step] *)

Lemma step_true_inv self symbol self1 :
  step symbol self = (inr true, self1) ->
  symbol ∈ input_alphabet self /\
  exists top rest next_state push_symbols,
    stack self = top :: rest /\
    transitions self !! (current_state self, symbol, Some top)
      = Some (next_state, push_symbols) /\
    self1 = applied self symbol top next_state push_symbols rest.
Proof.
  intros Hstep. pose proof (step_cases self symbol) as Hv. rewrite Hstep in Hv.
  inversion Hv; subst. split; [assumption|]. eauto 8.
Qed.

Lemma step_false_inv self symbol self2 :
  step symbol self = (inr false, self2) ->
  exists entry,
    self2 = set_log (log self ++ [entry]) self /\
    (entry = invalid_entry self symbol \/ entry = stuck_entry self symbol).
Proof.
  intros Hstep. pose proof (step_cases self symbol) as Hv. rewrite Hstep in Hv.
  inversion Hv; subst; eauto.
Qed.

Lemma step_raise_inv self symbol e self2 :
  step symbol self = (inl e, self2) ->
  self2 = self /\ symbol ∈ input_alphabet self /\ stack self = [] /\
  is_Some (transitions self !! (current_state self, symbol, None)).
Proof.
  intros Hstep. pose proof (step_cases self symbol) as Hv. rewrite Hstep in Hv.
  inversion Hv; subst. repeat split; try assumption. eauto.
Qed.

(** ** Sequences consumed by successful steps *)

Lemma consumed_app self pre self1 post self2 :
  consumed self pre self1 -> consumed self1 post self2 ->
  consumed self (pre ++ post)%list self2.
Proof.
  induction 1 as [self|self symbol s1 rest s' Hstep _ IH]; intros Hpost; [exact Hpost|].
  simpl. econstructor; [exact Hstep|]. apply IH, Hpost.
Qed.

Lemma consumed_alphabet self sequence self' :
  consumed self sequence self' ->
  Forall (fun symbol => symbol ∈ input_alphabet self) sequence.
Proof.
  induction 1 as [self|self symbol s1 rest s' Hstep _ IH]; constructor.
  - apply step_true_inv in Hstep. tauto.
  - apply step_true_inv in Hstep as (_ & top & rest' & q & push & _ & _ & ->).
    exact IH.
Qed.

Lemma consumed_tags self sequence self' :
  consumed self sequence self' ->
  tags self' = (tags self ++ replicate (length sequence) Result_Success)%list.
Proof.
  unfold tags.
  induction 1 as [self|self symbol s1 rest s' Hstep _ IH].
  - simpl. rewrite app_nil_r. reflexivity.
  - apply step_true_inv in Hstep as (_ & top & rest' & q & push & _ & _ & ->).
    rewrite IH. simpl. rewrite fmap_app, <- app_assoc. reflexivity.
Qed.

(** ** The shape of a run *)

Lemma started_tags self : tags (started self) = [Result_Start].
Proof. reflexivity. Qed.

(** The three ways [run] can end, each with the verdict, the part of the
    sequence that was consumed and the tags of the trace. *)
Lemma run_cases sequence self :
  (exists self',
     consumed (started self) sequence self' /\
     run sequence self =
       (inr (if decide (current_state self' ∈ accept_states self')
             then "Accepted" else "Rejected"), self') /\
     tags self' = Result_Start :: replicate (length sequence) Result_Success) \/
  (exists pre symbol post self1 self2 tag,
     sequence = (pre ++ symbol :: post)%list /\
     consumed (started self) pre self1 /\
     step symbol self1 = (inr false, self2) /\
     run sequence self = (inr "Rejected", self2) /\
     (tag = Result_Halted \/ tag = Result_Stuck) /\
     tags self2 = Result_Start :: (replicate (length pre) Result_Success ++ [tag])%list) \/
  (exists pre symbol post self1,
     sequence = (pre ++ symbol :: post)%list /\
     consumed (started self) pre self1 /\
     step symbol self1 = (inl IndexError, self1) /\
     run sequence self = (inl IndexError, self1) /\
     tags self1 = Result_Start :: replicate (length pre) Result_Success).
Proof.
  rewrite run_unfold.
  destruct (run_loop_cases sequence (started self)) as
    [(self' & Hc & Hr)
    |[(pre & a & post & s1 & s2 & Hseq & Hc & Hs & Hr)
     |(pre & a & post & s1 & Hseq & Hc & Hs & Hr)]]; rewrite Hr.
  - left. exists self'. repeat split; [assumption|].
    rewrite (consumed_tags _ _ _ Hc), started_tags. reflexivity.
  - right; left.
    pose proof (consumed_tags _ _ _ Hc) as Ht. rewrite started_tags in Ht.
    destruct (step_false_inv _ _ _ Hs) as (entry & Hs2 & Hentry).
    exists pre, a, post, s1, s2, (Result entry).
    repeat split; try assumption.
    + destruct Hentry as [-> | ->]; auto.
    + rewrite Hs2. unfold tags in *. simpl. rewrite fmap_app, Ht. reflexivity.
  - right; right. exists pre, a, post, s1. repeat split; try assumption.
    rewrite (consumed_tags _ _ _ Hc), started_tags. reflexivity.
Qed.

(** * Further properties *)

(** X1.  The verdict law of [run], for every configuration.  [run]
    returns ["Accepted"] exactly when successful steps consume the whole
    sequence and leave an accept state; it returns ["Rejected"] exactly
    when they consume the whole sequence and leave another state, or
    when, after successful steps over a part of it, a step returns
    [False]. *)
Theorem run_verdict_law sequence self :
  (fst (run sequence self) = inr "Accepted" <->
   exists self', consumed (started self) sequence self' /\
                 current_state self' ∈ accept_states self') /\
  (fst (run sequence self) = inr "Rejected" <->
   (exists self', consumed (started self) sequence self' /\
                  current_state self' ∉ accept_states self') \/
   (exists pre symbol post self1 self2,
      sequence = (pre ++ symbol :: post)%list /\
      consumed (started self) pre self1 /\
      step symbol self1 = (inr false, self2))).
Proof.
  split; [apply run_accepted_iff|]. split.
  - destruct (run_cases sequence self) as
      [(self' & Hc & Hr & _)
      |[(pre & a & post & s1 & s2 & tag & Hseq & Hc & Hs & _)
       |(pre & a & post & s1 & _ & _ & _ & Hr & _)]].
    + rewrite Hr. simpl. destruct (decide _) as [|Hout]; [discriminate|].
      intros _. left. eauto.
    + intros _. right. eauto 10.
    + rewrite Hr. discriminate.
  - rewrite run_unfold.
    intros [(self' & Hc & Hout)|(pre & a & post & s1 & s2 & -> & Hc & Hs)].
    + apply run_loop_consumed in Hc. rewrite Hc. simpl.
      destruct (decide _); [contradiction|reflexivity].
    + rewrite (run_loop_app pre (a :: post) _ s1 Hc). simpl. unfold bind.
      rewrite Hs. reflexivity.
Qed.

(** X2.  When no transition key has the absent marker as its stack top,
    [run] raises nothing: for every sequence it returns, and what it
    returns is ["Accepted"] or ["Rejected"]. *)
Theorem run_returns_a_verdict sequence self :
  no_absent_top (transitions self) ->
  fst (run sequence self) = inr "Accepted" \/
  fst (run sequence self) = inr "Rejected".
Proof.
  intros Hno. destruct (run_returns sequence self Hno) as [verdict Hv].
  destruct (run_verdicts sequence self verdict Hv) as [-> | ->]; auto.
Qed.

(** The pizza object, on a sequence with a symbol outside its alphabet. *)
Lemma run_returns_a_verdict_witness :
  fst (run ["order"; "salad"] pizza_bot) = inr "Accepted" \/
  fst (run ["order"; "salad"] pizza_bot) = inr "Rejected".
Proof.
  apply (run_returns_a_verdict ["order"; "salad"] pizza_bot).
  apply (bool_decide_unpack _). vm_compute. exact I.
Defined.

(** X3.  [step] raises in one situation only: the symbol is in the input
    alphabet, the stack is empty, and the transitions have an entry for
    the current state and the symbol with the absent marker as stack
    top.  The call then leaves the object as it was. *)
Theorem step_raises_iff self symbol :
  (fst (step symbol self) = inl IndexError <->
   symbol ∈ input_alphabet self /\ stack self = [] /\
   is_Some (transitions self !! (current_state self, symbol, None))) /\
  (fst (step symbol self) = inl IndexError -> snd (step symbol self) = self).
Proof.
  split; [split|].
  - destruct (step symbol self) as [[e|ok] self2] eqn:Hstep; [|discriminate].
    intros _. apply step_raise_inv in Hstep. tauto.
  - intros (Hin & Hempty & [[q push] Hk]).
    rewrite (step_raises self symbol q push Hin Hempty Hk). reflexivity.
  - destruct (step symbol self) as [[e|ok] self2] eqn:Hstep; [|discriminate].
    intros _. apply step_raise_inv in Hstep. tauto.
Qed.

Lemma run_loop_early pre post self :
  fst (run_loop pre self) <> inr None ->
  run_loop (pre ++ post) self = run_loop pre self.
Proof.
  revert self. induction pre as [|symbol pre IH]; intros self Hearly.
  - contradiction Hearly. reflexivity.
  - simpl in *. unfold bind in *.
    destruct (step symbol self) as [[e|[|]] self1]; simpl in *; auto.
Qed.

(** X4.  Once the loop of [run] has been left early on a sequence, by a
    step that returned [False] or raised, nothing that follows that
    sequence is consumed: the run of the longer sequence gives the same
    outcome and leaves the same object, trace included. *)
Theorem run_ignores_input_after_halt pre post self :
  fst (run_loop pre (started self)) <> inr None ->
  run (pre ++ post) self = run pre self.
Proof.
  intros Hearly. rewrite !run_unfold, (run_loop_early pre post _ Hearly). reflexivity.
Qed.

(** [done] right after [order] finds no transition; [pay] is not read. *)
Lemma run_ignores_input_after_halt_witness :
  run (["order"; "done"] ++ ["pay"]) pizza_bot = run ["order"; "done"] pizza_bot.
Proof.
  apply (run_ignores_input_after_halt ["order"; "done"] ["pay"] pizza_bot).
  vm_compute. discriminate.
Defined.

(** X5.  The trace [run] leaves never has more records than the
    sequence has symbols plus one, whether [run] returns or raises; when
    [run] returns ["Accepted"] it has exactly that many. *)
Theorem run_trace_length sequence self :
  length (log (snd (run sequence self))) <= S (length sequence) /\
  (fst (run sequence self) = inr "Accepted" ->
   length (log (snd (run sequence self))) = S (length sequence)).
Proof.
  assert (Hlen : forall s, length (log s) = length (tags s))
    by (intros s; unfold tags; rewrite length_fmap; reflexivity).
  destruct (run_cases sequence self) as
    [(self' & _ & Hr & Ht)
    |[(pre & a & post & s1 & s2 & tag & -> & _ & _ & Hr & _ & Ht)
     |(pre & a & post & s1 & -> & _ & _ & Hr & Ht)]];
    rewrite Hr; simpl; rewrite Hlen, Ht; simpl;
    rewrite ?length_app, ?length_replicate; simpl; split; try lia; discriminate.
Qed.

(** X6.  The tags of the trace [run] leaves.  The sequence splits into
    the part [pre] consumed by successful steps and the part [post]
    left: [post] is empty, or its first symbol is one on which [step]
    returned [False] or raised.  The trace is a Start record, then
    exactly one Success record for each symbol of [pre], then at most
    one more record: none when [post] is empty or [step] raised; when
    [step] returned [False], one tagged Stuck if the symbol is in the
    input alphabet and Halted if not, and [run] returns ["Rejected"].
    When [run] returns ["Accepted"], [post] is empty and every symbol of
    the sequence has its Success record. *)
Theorem run_trace_tags sequence self :
  exists (pre post : list string) self1 (tail : list string),
    sequence = (pre ++ post)%list /\
    consumed (started self) pre self1 /\
    tags (snd (run sequence self))
      = Result_Start :: (replicate (length pre) Result_Success ++ tail)%list /\
    match post with
    | [] => tail = []
    | symbol :: _ =>
        (fst (step symbol self1) = inr false /\
         tail = [if decide (symbol ∈ input_alphabet self)
                 then Result_Stuck else Result_Halted] /\
         fst (run sequence self) = inr "Rejected") \/
        (fst (step symbol self1) = inl IndexError /\ tail = [] /\
         fst (run sequence self) = inl IndexError)
    end /\
    (tail = [] \/ tail = [Result_Halted] \/ tail = [Result_Stuck]) /\
    (tail <> [] -> fst (run sequence self) = inr "Rejected") /\
    (fst (run sequence self) = inr "Accepted" ->
     post = [] /\ tail = [] /\ length pre = length sequence).
Proof.
  rewrite run_unfold.
  destruct (run_loop_cases sequence (started self)) as
    [(self' & Hc & Hr)
    |[(pre & a & post & s1 & s2 & -> & Hc & Hs & Hr)
     |(pre & a & post & s1 & -> & Hc & Hs & Hr)]]; rewrite Hr; simpl.
  - exists sequence, [], self', [].
    rewrite !app_nil_r, (consumed_tags _ _ _ Hc), started_tags.
    repeat split; auto. intros Hne. contradiction.
  - assert (Hia : input_alphabet s1 = input_alphabet self).
    { apply consumed_same_definition in Hc.
      unfold same_definition, definition_of in Hc. rewrite started_eq in Hc.
      simpl in Hc. congruence. }
    pose proof (consumed_tags _ _ _ Hc) as Ht. rewrite started_tags in Ht.
    pose proof (step_cases s1 a) as Hv. rewrite Hs in Hv.
    exists pre, (a :: post), s1,
      [if decide (a ∈ input_alphabet self) then Result_Stuck else Result_Halted].
    split; [reflexivity|]. split; [assumption|]. split.
    + inversion Hv as [Hout| Hin Hk | |]; subst; unfold tags in *; simpl;
        rewrite fmap_app, Ht; simpl;
        (destruct (decide (a ∈ input_alphabet self)) as [Hd|Hd];
         [|]; rewrite Hia in *; try contradiction; reflexivity).
    + split; [left; rewrite Hs; auto|].
      split; [destruct (decide _); auto|].
      split; [reflexivity|discriminate].
  - exists pre, (a :: post), s1, [].
    rewrite app_nil_r, (consumed_tags _ _ _ Hc), started_tags.
    split; [reflexivity|]. split; [assumption|]. split; [reflexivity|].
    split; [right; rewrite Hs; auto|].
    split; [auto|]. split; [intros Hne; contradiction|discriminate].
Qed.

Lemma step_describes self symbol :
  (exists entry, last (log self) = Some entry /\ describes entry self) ->
  exists entry, last (log (snd (step symbol self))) = Some entry /\
                describes entry (snd (step symbol self)).
Proof.
  intros Hinv.
  destruct (step_cases self symbol); simpl; try exact Hinv;
    rewrite last_snoc; eexists; (split; [reflexivity|]); split; reflexivity.
Qed.

Lemma run_loop_describes sequence self :
  (exists entry, last (log self) = Some entry /\ describes entry self) ->
  exists entry, last (log (snd (run_loop sequence self))) = Some entry /\
                describes entry (snd (run_loop sequence self)).
Proof.
  revert self. induction sequence as [|symbol rest IH]; intros self Hinv; [exact Hinv|].
  simpl. unfold bind. pose proof (step_describes self symbol Hinv) as Hstep.
  destruct (step symbol self) as [[e|[|]] self1]; simpl in *; auto.
Qed.

(** X7.  Whatever the sequence and however [run] ends, the last record
    of the trace shows the configuration the object is left in: its
    ["New State"] is the current state and its ["Stack"] is the display
    of the stack.  (In the transition branch the record is built before
    [current_state] is assigned, from [next_state].) *)
Theorem run_last_record_describes sequence self :
  exists entry,
    last (log (snd (run sequence self))) = Some entry /\
    describes entry (snd (run sequence self)).
Proof.
  rewrite run_state. apply run_loop_describes.
  rewrite started_eq. simpl. eexists. split; [reflexivity|]. split; reflexivity.
Qed.

(** X8.  [run] accepts only sequences over the input alphabet: when it
    returns ["Accepted"], every symbol of the sequence is a member of
    [input_alphabet]. *)
Theorem run_accepts_over_alphabet sequence self :
  fst (run sequence self) = inr "Accepted" ->
  Forall (fun symbol => symbol ∈ input_alphabet self) sequence.
Proof.
  intros Hacc. apply run_accepted_iff in Hacc as (self' & Hc & _).
  apply consumed_alphabet in Hc. exact Hc.
Qed.

(** The shortest accepted order. *)
Lemma run_accepts_over_alphabet_witness :
  Forall (fun symbol => symbol ∈ input_alphabet pizza_bot) ["order"; "pay"].
Proof.
  apply (run_accepts_over_alphabet ["order"; "pay"] pizza_bot).
  vm_compute. reflexivity.
Defined.

(** X9.  [reset] undoes any run: after [run], whether it returned or
    raised, [reset] leaves the object exactly as [reset] would have left
    it before the run, and so, for an object fresh from the
    constructor, exactly as the constructor built it. *)
Theorem reset_after_run sequence self :
  reset (snd (run sequence self)) = reset self /\
  (forall states input_alphabet stack_alphabet transitions start_state
          start_stack_symbol accept_states,
     reset (snd (run sequence
                   (snd (__init__ states input_alphabet stack_alphabet transitions
                           start_state start_stack_symbol accept_states))))
     = __init__ states input_alphabet stack_alphabet transitions
         start_state start_stack_symbol accept_states).
Proof.
  assert (Hreset : forall a b, same_definition a b -> reset a = reset b).
  { intros a b Hab. unfold same_definition, definition_of in Hab.
    cbv [reset bind get modify set_current_state set_stack set_log].
    destruct a, b. simpl in *. injection Hab as -> -> -> -> -> -> ->. reflexivity. }
  split.
  - apply Hreset, run_same_definition.
  - intros. erewrite Hreset by apply run_same_definition. reflexivity.
Qed.

(** X10.  The display of the stack tells the empty stack from every
    other: [get_stack_visualization] gives ["[] (Empty)"] for the empty
    stack and for no other stack, whatever symbols it holds. *)
Theorem get_stack_visualization_empty_iff self :
  get_stack_visualization self = "[] (Empty)" <-> stack self = [].
Proof.
  unfold get_stack_visualization. split.
  - destruct (stack self) as [|top rest]; [reflexivity|]. cbn [truthy negb].
    generalize (join " | " (top :: rest)). intros s Hs. exfalso.
    simpl in Hs. injection Hs as Hs.
    do 8 (destruct s as [|? s]; simpl in Hs; [discriminate Hs|injection Hs as _ Hs]).
    destruct s as [|? [|? s]]; discriminate Hs.
  - intros ->. reflexivity.
Qed.

(** X11.  The empty sequence: [run] makes no call of [step], returns
    ["Accepted"] exactly when the start state is an accept state, and
    leaves the object reset with a trace of the Start record alone. *)
Theorem run_empty_sequence self :
  (fst (run [] self) = inr "Accepted" <-> start_state self ∈ accept_states self) /\
  (fst (run [] self) = inr "Rejected" <-> start_state self ∉ accept_states self) /\
  current_state (snd (run [] self)) = start_state self /\
  stack (snd (run [] self)) = [start_stack_symbol self] /\
  tags (snd (run [] self)) = [Result_Start].
Proof.
  rewrite run_unfold. simpl. rewrite started_eq. simpl.
  destruct (decide (start_state self ∈ accept_states self)); simpl;
    repeat split; auto; try discriminate; intros; contradiction.
Qed.

(** X12.  When [run] raises, the object is left as the successful steps
    over the part of the sequence before the offending symbol left it,
    with an empty stack, and the transitions have an entry for its
    state and that symbol with the absent marker as stack top. *)
Theorem run_raise_state sequence self e :
  fst (run sequence self) = inl e ->
  stack (snd (run sequence self)) = [] /\
  exists pre symbol post,
    sequence = (pre ++ symbol :: post)%list /\
    consumed (started self) pre (snd (run sequence self)) /\
    is_Some (transitions self
               !! (current_state (snd (run sequence self)), symbol, None)).
Proof.
  destruct (run_cases sequence self) as
    [(self' & _ & Hr & _)
    |[(pre & a & post & s1 & s2 & tag & _ & _ & _ & Hr & _)
     |(pre & a & post & s1 & Hseq & Hc & Hs & Hr & _)]];
    rewrite Hr; simpl; try discriminate.
  intros _. apply step_raise_inv in Hs as (_ & _ & Hempty & Hk).
  split; [exact Hempty|]. exists pre, a, post. repeat split; try assumption.
  apply consumed_same_definition in Hc.
  unfold same_definition, definition_of in Hc. rewrite started_eq in Hc. simpl in Hc.
  injection Hc as _ _ _ Htr _ _ _. rewrite <- Htr. exact Hk.
Qed.

(** The sentinel popped, then the rule for the empty stack. *)
Lemma run_raise_state_witness :
  stack (snd (run ["a"; "a"] drain_bot)) = [] /\
  exists pre symbol post,
    ["a"; "a"] = (pre ++ symbol :: post)%list /\
    consumed (started drain_bot) pre (snd (run ["a"; "a"] drain_bot)) /\
    is_Some (transitions drain_bot
               !! (current_state (snd (run ["a"; "a"] drain_bot)), symbol, None)).
Proof.
  apply (run_raise_state ["a"; "a"] drain_bot IndexError).
  vm_compute. reflexivity.
Defined.

(** * Further properties of the pizza-ordering configuration *)

Lemma occurrences_cons a b l :
  occurrences a (b :: l) = (if decide (b = a) then 1 else 0) + occurrences a l.
Proof.
  unfold occurrences. rewrite filter_cons. destruct (decide (b = a)); reflexivity.
Qed.

Lemma occurrences_nil a : occurrences a [] = 0.
Proof. reflexivity. Qed.

(** A successful step under the pizza configuration applies one of the
    six rules. *)
Lemma pizza_step_true self symbol self1 :
  is_pizza self ->
  step symbol self = (inr true, self1) ->
  is_pizza self1 /\
  exists top rest next_state push,
    stack self = top :: rest /\
    (current_state self, symbol, Some top, next_state, push) ∈
      [ ("q_start", "order", Some "Z0", "q_ordering", ["O"; "Z0"]);
        ("q_ordering", "pizza", Some "O", "q_ordering", ["P"; "O"]);
        ("q_ordering", "toppings", Some "P", "q_ordering", ["T"; "P"]);
        ("q_ordering", "done", Some "T", "q_ordering", []);
        ("q_ordering", "done", Some "P", "q_ordering", []);
        ("q_ordering", "pay", Some "O", "q_done", []) ] /\
    current_state self1 = next_state /\
    stack self1 = (push ++ rest)%list.
Proof.
  intros Hp Hstep.
  apply step_true_inv in Hstep as (_ & top & rest & q & push & Hstack & Hk & ->).
  split; [exact Hp|].
  apply is_pizza_fields in Hp as (_ & Htr & _). rewrite Htr in Hk.
  apply pizza_rules in Hk. exists top, rest, q, push. auto.
Qed.

(** The rule for a given state, symbol and stack top fires. *)
Lemma pizza_step_rule self symbol q top rest next_state push :
  is_pizza self ->
  current_state self = q ->
  stack self = top :: rest ->
  symbol ∈ input_alphabet_cfg ->
  transitions_cfg !! (q, symbol, Some top) = Some (next_state, push) ->
  step symbol self = (inr true, applied self symbol top next_state push rest).
Proof.
  intros Hp Hq Hstack Hin Hk.
  apply is_pizza_fields in Hp as (Hia & Htr & _).
  apply step_applied; [rewrite Hia; exact Hin|exact Hstack|].
  rewrite Htr, Hq. exact Hk.
Qed.

Lemma pizza_consumed_q_done self sequence self' :
  is_pizza self -> current_state self = "q_done" ->
  consumed self sequence self' -> sequence = [] /\ self' = self.
Proof.
  intros Hp Hq Hc. destruct Hc as [self|self symbol s1 rest s' Hstep _]; [auto|].
  destruct (pizza_q_done_stuck self symbol Hp Hq) as [s2 Hs2].
  rewrite Hs2 in Hstep. discriminate Hstep.
Qed.

(** Each successful step changes the depth of the stack by one: up for
    [order], [pizza] and [toppings], down for [done] and [pay]. *)
Lemma pizza_consumed_depth self sequence self' :
  consumed self sequence self' ->
  is_pizza self ->
  length (stack self') + (occurrences "done" sequence + occurrences "pay" sequence)
  = length (stack self)
    + (occurrences "order" sequence + occurrences "pizza" sequence
       + occurrences "toppings" sequence).
Proof.
  induction 1 as [self|self symbol s1 rest s' Hstep _ IH]; intros Hp.
  - unfold occurrences. simpl. lia.
  - destruct (pizza_step_true self symbol s1 Hp Hstep)
      as (Hp1 & top & below & q & push & Hstack & Hrule & _ & Hstack1).
    specialize (IH Hp1). rewrite Hstack1 in IH. rewrite Hstack.
    rewrite !occurrences_cons.
    repeat (apply elem_of_cons in Hrule as [Hrule|Hrule];
            [injection Hrule as _ -> _ _ ->;
             repeat case_decide; try congruence; simpl in *; lia|]).
    inversion Hrule.
Qed.

(** X13.  Stack depth accounting under the pizza configuration: when
    every symbol of the sequence is processed by a successful step, the
    stack [run] leaves has as many symbols as one, plus the number of
    [order], [pizza] and [toppings] in the sequence, minus the number of
    [done] and [pay]. *)
Theorem pizza_stack_depth self sequence :
  is_pizza self ->
  fst (run_loop sequence (started self)) = inr None ->
  length (stack (snd (run sequence self)))
    + (occurrences "done" sequence + occurrences "pay" sequence)
  = 1 + (occurrences "order" sequence + occurrences "pizza" sequence
         + occurrences "toppings" sequence).
Proof.
  intros Hp Hloop. rewrite run_state.
  destruct (run_loop sequence (started self)) as [r self'] eqn:Hr.
  simpl in Hloop. subst r. apply run_loop_consumed in Hr. simpl.
  rewrite (pizza_consumed_depth _ _ _ Hr (proj1 (pizza_started self Hp))).
  rewrite started_eq. reflexivity.
Qed.

(** An order with one pizza, its toppings still open. *)
Lemma pizza_stack_depth_witness :
  length (stack (snd (run ["order"; "pizza"; "toppings"] pizza_bot)))
    + (occurrences "done" ["order"; "pizza"; "toppings"]
       + occurrences "pay" ["order"; "pizza"; "toppings"])
  = 1 + (occurrences "order" ["order"; "pizza"; "toppings"]
         + occurrences "pizza" ["order"; "pizza"; "toppings"]
         + occurrences "toppings" ["order"; "pizza"; "toppings"]).
Proof.
  apply (pizza_stack_depth pizza_bot ["order"; "pizza"; "toppings"]).
  - reflexivity.
  - vm_compute. reflexivity.
Defined.

(** From the ordering state, with the stack [above ++ [O; Z0]] and
    [above] made of [P] and [T]: successful steps either stay in the
    ordering state over [pizza], [toppings] and [done], or end with the
    one [pay] that leads to the accept state, on the sentinel alone. *)
Lemma pizza_ordering_consumed self sequence self' :
  consumed self sequence self' ->
  is_pizza self ->
  current_state self = "q_ordering" ->
  forall above : list string,
    stack self = (above ++ ["O"; "Z0"])%list ->
    Forall (fun x => x = "P" \/ x = "T") above ->
    (current_state self' = "q_ordering" /\
     Forall (fun a => a ∈ ["pizza"; "toppings"; "done"]) sequence /\
     exists above' : list string,
       stack self' = (above' ++ ["O"; "Z0"])%list /\
       Forall (fun x => x = "P" \/ x = "T") above' /\
       length above' + occurrences "done" sequence
       = length above + occurrences "pizza" sequence + occurrences "toppings" sequence)
    \/
    (current_state self' = "q_done" /\
     exists body : list string,
       sequence = (body ++ ["pay"])%list /\
       Forall (fun a => a ∈ ["pizza"; "toppings"; "done"]) body /\
       stack self' = ["Z0"] /\
       occurrences "done" body
       = length above + occurrences "pizza" body + occurrences "toppings" body).
Proof.
  induction 1 as [self|self symbol s1 rest s' Hstep Hrest IH];
    intros Hp Hq above Hstack Habove.
  - left. repeat split; [assumption|constructor|].
    exists above. unfold occurrences. simpl. repeat split; auto; lia.
  - destruct (pizza_step_true self symbol s1 Hp Hstep)
      as (Hp1 & top & below & q & push & Hstack0 & Hrule & Hq1 & Hstack1).
    rewrite Hq in Hrule. rewrite Hstack in Hstack0.
    assert (Hnext :
      forall above1 : list string,
        q = "q_ordering" ->
        symbol ∈ ["pizza"; "toppings"; "done"] ->
        stack s1 = (above1 ++ ["O"; "Z0"])%list ->
        Forall (fun x => x = "P" \/ x = "T") above1 ->
        length above1 + occurrences "done" [symbol]
        = length above + occurrences "pizza" [symbol] + occurrences "toppings" [symbol] ->
        (current_state s' = "q_ordering" /\
         Forall (fun a => a ∈ ["pizza"; "toppings"; "done"]) (symbol :: rest) /\
         exists above' : list string,
           stack s' = (above' ++ ["O"; "Z0"])%list /\
           Forall (fun x => x = "P" \/ x = "T") above' /\
           length above' + occurrences "done" (symbol :: rest)
           = length above + occurrences "pizza" (symbol :: rest)
             + occurrences "toppings" (symbol :: rest))
        \/
        (current_state s' = "q_done" /\
         exists body : list string,
           symbol :: rest = (body ++ ["pay"])%list /\
           Forall (fun a => a ∈ ["pizza"; "toppings"; "done"]) body /\
           stack s' = ["Z0"] /\
           occurrences "done" body
           = length above + occurrences "pizza" body + occurrences "toppings" body)).
    { intros above1 Hqo Hsym Hs1 Hab1 Hcount. rewrite Hqo in Hq1.
      rewrite !occurrences_cons, !occurrences_nil in Hcount.
      destruct (IH Hp1 Hq1 above1 Hs1 Hab1)
        as [(Hq' & Hall & above' & Hs' & Hab' & Hc')
           |(Hq' & body & Hseq & Hall & Hs' & Hc')].
      - left. repeat split; [assumption|constructor; assumption|].
        exists above'. split; [assumption|]. split; [assumption|].
        rewrite !occurrences_cons. lia.
      - right. split; [assumption|]. exists (symbol :: body).
        split; [rewrite Hseq; reflexivity|].
        split; [constructor; assumption|]. split; [assumption|].
        rewrite !occurrences_cons. lia. }
    repeat (apply elem_of_cons in Hrule as [Hrule|Hrule];
            [try discriminate Hrule; injection Hrule as -> -> -> ->|]);
      [| | | | |inversion Hrule].
    + (* pizza, on O *)
      destruct above as [|x above0]; simpl in Hstack0.
      * injection Hstack0 as <-.
        apply (Hnext ["P"]);
          [reflexivity|set_solver|rewrite Hstack1; reflexivity
          |repeat (apply Forall_cons; split; [auto|]); first [assumption|constructor]
          |count_literals].
      * injection Hstack0 as -> _. inversion Habove as [|? ? [Hx|Hx] _]; discriminate Hx.
    + (* toppings, on P *)
      destruct above as [|x above0]; simpl in Hstack0; [discriminate Hstack0|].
      injection Hstack0 as -> <-. inversion Habove as [|? ? _ Hab0]; subst.
      apply (Hnext ("T" :: "P" :: above0));
        [reflexivity|set_solver|rewrite Hstack1; reflexivity
        |repeat (apply Forall_cons; split; [auto|]); first [assumption|constructor]
          |count_literals].
    + (* done, on T *)
      destruct above as [|x above0]; simpl in Hstack0; [discriminate Hstack0|].
      injection Hstack0 as -> <-. inversion Habove as [|? ? _ Hab0]; subst.
      apply (Hnext above0);
        [reflexivity|set_solver|rewrite Hstack1; reflexivity|assumption|count_literals].
    + (* done, on P *)
      destruct above as [|x above0]; simpl in Hstack0; [discriminate Hstack0|].
      injection Hstack0 as -> <-. inversion Habove as [|? ? _ Hab0]; subst.
      apply (Hnext above0);
        [reflexivity|set_solver|rewrite Hstack1; reflexivity|assumption|count_literals].
    + (* pay, on O *)
      destruct above as [|x above0]; simpl in Hstack0.
      * injection Hstack0 as <-.
        destruct (pizza_consumed_q_done s1 rest s' Hp1 Hq1 Hrest) as [-> ->].
        right. split; [assumption|]. exists [].
        repeat split; [constructor|exact Hstack1].
      * injection Hstack0 as -> _. inversion Habove as [|? ? [Hx|Hx] _]; discriminate Hx.
Qed.

(** X14.  The sequences the pizza configuration accepts: when [run]
    returns ["Accepted"], the sequence is [order], then a body of
    [pizza], [toppings] and [done] only, then [pay]; the body has as
    many [done] as [pizza] and [toppings] together; and the object is
    left in [q_done] with the sentinel alone on the stack. *)
Theorem pizza_accepted_shape self sequence :
  is_pizza self ->
  fst (run sequence self) = inr "Accepted" ->
  exists body : list string,
    sequence = "order" :: (body ++ ["pay"])%list /\
    Forall (fun a => a ∈ ["pizza"; "toppings"; "done"]) body /\
    occurrences "done" body = occurrences "pizza" body + occurrences "toppings" body /\
    current_state (snd (run sequence self)) = "q_done" /\
    stack (snd (run sequence self)) = ["Z0"].
Proof.
  intros Hp Hacc. apply run_accepted_iff in Hacc as (self' & Hc & Hin).
  rewrite run_state. rewrite (proj2 (run_loop_consumed _ _ _) Hc). simpl.
  destruct (pizza_started self Hp) as [Hp0 _].
  assert (Hp' : is_pizza self').
  { eapply is_pizza_same; [eapply consumed_same_definition; exact Hc|exact Hp0]. }
  pose proof (is_pizza_fields self' Hp') as (_ & _ & _ & _ & Hac).
  assert (Hq : current_state self' = "q_done").
  { rewrite Hac in Hin. apply elem_of_singleton in Hin. exact Hin. }
  pose proof (is_pizza_fields self Hp) as (_ & _ & Hq0 & Hz0 & _).
  inversion Hc as [s Hs Hseq Hs'|s symbol s1 rest s' Hstep Hrest Hs Hseq Hs']; subst.
  - rewrite started_eq in Hq. simpl in Hq. rewrite Hq0 in Hq. discriminate Hq.
  - destruct (pizza_step_true _ _ _ Hp0 Hstep)
      as (Hp1 & top & below & q & push & Hstack & Hrule & Hq1 & Hstack1).
    rewrite started_eq in Hstack, Hrule. simpl in Hstack, Hrule.
    rewrite Hq0 in Hrule. rewrite Hz0 in Hstack. injection Hstack as <- <-.
    repeat (apply elem_of_cons in Hrule as [Hrule|Hrule];
            [try discriminate Hrule; injection Hrule as -> -> ->|]);
      [|inversion Hrule].
    destruct (pizza_ordering_consumed s1 rest self' Hrest Hp1 Hq1 [] Hstack1)
      as [(Hq' & _)|(_ & body & -> & Hall & Hs' & Hcount)]; [constructor| |].
    + rewrite Hq' in Hq. discriminate Hq.
    + exists body. repeat split; assumption.
Qed.

(** The shortest accepted order: its body is empty. *)
Lemma pizza_accepted_shape_witness :
  exists body : list string,
    ["order"; "pay"] = "order" :: (body ++ ["pay"])%list /\
    Forall (fun a => a ∈ ["pizza"; "toppings"; "done"]) body /\
    occurrences "done" body = occurrences "pizza" body + occurrences "toppings" body /\
    current_state (snd (run ["order"; "pay"] pizza_bot)) = "q_done" /\
    stack (snd (run ["order"; "pay"] pizza_bot)) = ["Z0"].
Proof.
  apply (pizza_accepted_shape pizza_bot ["order"; "pay"]).
  - reflexivity.
  - vm_compute. reflexivity.
Defined.

Lemma pizza_fire self symbol q top rest next_state push :
  is_pizza self ->
  current_state self = q ->
  stack self = top :: rest ->
  bool_decide (symbol ∈ input_alphabet_cfg) = true ->
  transitions_cfg !! (q, symbol, Some top) = Some (next_state, push) ->
  exists self1,
    step symbol self = (inr true, self1) /\ is_pizza self1 /\
    current_state self1 = next_state /\ stack self1 = (push ++ rest)%list.
Proof.
  intros Hp Hq Hstack Hin Hk. apply bool_decide_eq_true_1 in Hin.
  exists (applied self symbol top next_state push rest).
  split; [eapply pizza_step_rule; eassumption|].
  split; [exact Hp|]. split; reflexivity.
Qed.

(** One pizza with toppings, ordered and closed, gives back the state
    and the stack it started from. *)
Lemma pizza_block self rest :
  is_pizza self -> current_state self = "q_ordering" -> stack self = "O" :: rest ->
  exists self',
    consumed self ["pizza"; "toppings"; "done"; "done"] self' /\
    is_pizza self' /\ current_state self' = "q_ordering" /\ stack self' = "O" :: rest.
Proof.
  intros Hp Hq Hstack.
  destruct (pizza_fire self "pizza" "q_ordering" "O" rest "q_ordering" ["P"; "O"])
    as (s1 & Hstep1 & Hp1 & Hq1 & Hstack1);
    [assumption|assumption|assumption|vm_compute; reflexivity|vm_compute; reflexivity|].
  destruct (pizza_fire s1 "toppings" "q_ordering" "P" ("O" :: rest) "q_ordering" ["T"; "P"])
    as (s2 & Hstep2 & Hp2 & Hq2 & Hstack2);
    [assumption|assumption|assumption|vm_compute; reflexivity|vm_compute; reflexivity|].
  destruct (pizza_fire s2 "done" "q_ordering" "T" ("P" :: "O" :: rest) "q_ordering" [])
    as (s3 & Hstep3 & Hp3 & Hq3 & Hstack3);
    [assumption|assumption|assumption|vm_compute; reflexivity|vm_compute; reflexivity|].
  destruct (pizza_fire s3 "done" "q_ordering" "P" ("O" :: rest) "q_ordering" [])
    as (s4 & Hstep4 & Hp4 & Hq4 & Hstack4);
    [assumption|assumption|assumption|vm_compute; reflexivity|vm_compute; reflexivity|].
  exists s4. split; [|auto].
  repeat (econstructor; [eassumption|]). constructor.
Qed.

Lemma pizza_blocks n self rest :
  is_pizza self -> current_state self = "q_ordering" -> stack self = "O" :: rest ->
  exists self',
    consumed self (concat (replicate n ["pizza"; "toppings"; "done"; "done"])) self' /\
    is_pizza self' /\ current_state self' = "q_ordering" /\ stack self' = "O" :: rest.
Proof.
  revert self. induction n as [|n IH]; intros self Hp Hq Hstack.
  - exists self. split; [constructor|auto].
  - destruct (pizza_block self rest Hp Hq Hstack) as (s1 & Hc1 & Hp1 & Hq1 & Hstack1).
    destruct (IH s1 Hp1 Hq1 Hstack1) as (s2 & Hc2 & Hp2 & Hq2 & Hstack2).
    exists s2. split; [|auto].
    change (replicate (S n) ["pizza"; "toppings"; "done"; "done"])
      with (["pizza"; "toppings"; "done"; "done"]
            :: replicate n ["pizza"; "toppings"; "done"; "done"]).
    rewrite concat_cons. eapply consumed_app; eassumption.
Qed.

(** X15.  The pizza configuration accepts an order of any number of
    pizzas: for every [n], [run] returns ["Accepted"] on [order], then
    [n] times [pizza toppings done done], then [pay]. *)
Theorem pizza_orders_accepted n self :
  is_pizza self ->
  fst (run (order_of n) self) = inr "Accepted".
Proof.
  intros Hp. destruct (pizza_started self Hp) as [Hp0 _].
  pose proof (is_pizza_fields self Hp) as (_ & _ & Hq0 & Hz0 & _).
  destruct (pizza_fire (started self) "order" "q_start" "Z0" [] "q_ordering" ["O"; "Z0"])
    as (s1 & Hstep1 & Hp1 & Hq1 & Hstack1);
    [assumption|rewrite started_eq; exact Hq0
    |rewrite started_eq; simpl; rewrite Hz0; reflexivity
    |vm_compute; reflexivity|vm_compute; reflexivity|].
  destruct (pizza_blocks n s1 ["Z0"] Hp1 Hq1 Hstack1) as (s2 & Hc2 & Hp2 & Hq2 & Hstack2).
  destruct (pizza_fire s2 "pay" "q_ordering" "O" ["Z0"] "q_done" [])
    as (s3 & Hstep3 & Hp3 & Hq3 & Hstack3);
    [assumption|assumption|assumption|vm_compute; reflexivity|vm_compute; reflexivity|].
  apply run_accepted_iff. exists s3. split.
  - unfold order_of. econstructor; [exact Hstep1|].
    eapply consumed_app; [exact Hc2|]. econstructor; [exact Hstep3|constructor].
  - apply is_pizza_fields in Hp3 as (_ & _ & _ & _ & ->). rewrite Hq3.
    unfold accept_states_cfg. apply elem_of_singleton. reflexivity.
Qed.

(** Two pizzas, on the object the script builds. *)
Lemma pizza_orders_accepted_witness :
  fst (run (order_of 2) pizza_bot) = inr "Accepted".
Proof.
  apply (pizza_orders_accepted 2 pizza_bot). reflexivity.
Defined.

(** * Further properties: the trace and the stack along a run *)

Lemma run_loop_log_prefix sequence self :
  log self `prefix_of` log (snd (run_loop sequence self)).
Proof.
  revert self. induction sequence as [|symbol rest IH]; intros self; [reflexivity|].
  simpl. unfold bind. pose proof (step_log self symbol) as Hlog.
  destruct (step symbol self) as [[e|[|]] self1]; simpl.
  - subst self1. reflexivity.
  - destruct Hlog as [entry Hlog]. etransitivity; [|apply IH].
    rewrite Hlog. apply prefix_app_r. reflexivity.
  - destruct Hlog as [entry ->]. apply prefix_app_r. reflexivity.
Qed.

(** X16.  Traces grow with the input: the trace [run] leaves on a
    sequence is a prefix of the trace it leaves on any longer sequence
    that starts with it. *)
Theorem run_trace_monotone pre post self :
  log (snd (run pre self)) `prefix_of` log (snd (run (pre ++ post) self)).
Proof.
  rewrite !run_state.
  destruct (run_loop pre (started self)) as [[e|[verdict|]] self1] eqn:Hpre.
  - rewrite run_loop_early by (rewrite Hpre; discriminate). rewrite Hpre. reflexivity.
  - rewrite run_loop_early by (rewrite Hpre; discriminate). rewrite Hpre. reflexivity.
  - apply run_loop_consumed in Hpre. rewrite (run_loop_app pre post _ self1 Hpre).
    apply run_loop_log_prefix.
Qed.

(** An invariant of [step] holds at every passage of the loop. *)
Lemma loop_points_invariant (P : PDASimulator -> Prop) :
  (forall self symbol, P self -> P (snd (step symbol self))) ->
  forall sequence self, P self -> Forall P (loop_points sequence self).
Proof.
  intros Hstep. induction sequence as [|symbol rest IH]; intros self HP; simpl.
  - repeat constructor; assumption.
  - constructor; [assumption|]. specialize (Hstep self symbol HP).
    destruct (step symbol self) as [[e|[|]] self1]; simpl in Hstep.
    + repeat constructor; assumption.
    + apply IH; assumption.
    + repeat constructor; assumption.
Qed.

(** X17.  A configuration whose start state, start stack symbol and
    transition values stay within the declared sets keeps the run
    within them: at every passage of the loop of [run], and so in the
    object [run] leaves, the current state is a member of [states] and
    every symbol on the stack is a member of [stack_alphabet]. *)
Theorem run_stays_in_declared_sets sequence self :
  start_state self ∈ states self ->
  start_stack_symbol self ∈ stack_alphabet self ->
  map_Forall (fun (_ : Key) (r : Rule) =>
                fst r ∈ states self /\
                Forall (fun x => x ∈ stack_alphabet self) (snd r))
             (transitions self) ->
  Forall (fun point =>
            current_state point ∈ states self /\
            Forall (fun x => x ∈ stack_alphabet self) (stack point))
         (run_points sequence self) /\
  current_state (snd (run sequence self)) ∈ states self /\
  Forall (fun x => x ∈ stack_alphabet self) (stack (snd (run sequence self))).
Proof.
  intros Hq Hz Hrules.
  assert (Hpoints :
    Forall (fun point =>
              transitions point = transitions self /\
              current_state point ∈ states self /\
              Forall (fun x => x ∈ stack_alphabet self) (stack point))
           (run_points sequence self)).
  { apply loop_points_invariant.
    - intros s symbol (Htr & Hcs & Hst).
      destruct (step_cases s symbol) as [| |top rest q push _ Hstack Hk|]; simpl; auto.
      rewrite Htr in Hk. apply Hrules in Hk as [Hq' Hpush]. simpl in *.
      repeat split; [assumption|assumption|].
      rewrite Hstack in Hst. inversion Hst; subst.
      apply Forall_app; split; assumption.
    - rewrite started_eq. simpl. repeat split; [assumption|].
      repeat constructor. assumption. }
  split.
  - eapply Forall_impl; [exact Hpoints|]. intros point (_ & Hcs & Hst). auto.
  - pose proof (loop_points_last sequence (started self)) as Hlast.
    rewrite <- run_state in Hlast. apply last_Some_elem_of in Hlast.
    rewrite Forall_forall in Hpoints.
    destruct (Hpoints _ Hlast) as (_ & Hcs & Hst). auto.
Qed.

(** The pizza configuration, on an order left open. *)
Lemma run_stays_in_declared_sets_witness :
  Forall (fun point =>
            current_state point ∈ states pizza_bot /\
            Forall (fun x => x ∈ stack_alphabet pizza_bot) (stack point))
         (run_points ["order"; "pizza"] pizza_bot) /\
  current_state (snd (run ["order"; "pizza"] pizza_bot)) ∈ states pizza_bot /\
  Forall (fun x => x ∈ stack_alphabet pizza_bot)
         (stack (snd (run ["order"; "pizza"] pizza_bot))).
Proof.
  apply (run_stays_in_declared_sets ["order"; "pizza"] pizza_bot).
  - apply (bool_decide_unpack _). vm_compute. exact I.
  - apply (bool_decide_unpack _). vm_compute. exact I.
  - apply (bool_decide_unpack _). vm_compute. exact I.
Defined.

(** X18.  [step] looks at the top of the stack only.  With the same
    top on another rest of the stack, [step] has the same outcome and
    leaves the same state, and the two stacks it leaves are the same
    symbols on top of the two rests. *)
Theorem step_inspects_top_only self symbol top rest rest' :
  stack self = top :: rest ->
  fst (step symbol (set_stack (top :: rest') self)) = fst (step symbol self) /\
  (exists ok, fst (step symbol self) = inr ok) /\
  current_state (snd (step symbol (set_stack (top :: rest') self)))
    = current_state (snd (step symbol self)) /\
  exists on_top : list string,
    stack (snd (step symbol self)) = (on_top ++ rest)%list /\
    stack (snd (step symbol (set_stack (top :: rest') self))) = (on_top ++ rest')%list.
Proof.
  intros Hstack.
  destruct (decide (symbol ∈ input_alphabet self)) as [Hin|Hout].
  - destruct (transitions self !! (current_state self, symbol, Some top))
      as [[q push]|] eqn:Hk.
    + rewrite (step_applied self symbol top rest q push Hin Hstack Hk).
      rewrite (step_applied (set_stack (top :: rest') self) symbol top rest' q push);
        [|exact Hin|reflexivity|exact Hk].
      simpl. repeat split; eauto.
    + rewrite (step_stuck self symbol Hin) by (rewrite Hstack; exact Hk).
      rewrite (step_stuck (set_stack (top :: rest') self) symbol);
        [|exact Hin|exact Hk].
      simpl. repeat split; eauto. exists [top]. rewrite Hstack. auto.
  - rewrite (step_invalid self symbol Hout).
    rewrite (step_invalid (set_stack (top :: rest') self) symbol Hout).
    simpl. repeat split; eauto. exists [top]. rewrite Hstack. auto.
Qed.

(** [pizza] on an open order (the object after the run of [order], in
    [q_ordering] with [O] on the sentinel), and on the same top over a
    deeper stack: the transition fires in both. *)
Lemma step_inspects_top_only_witness :
  fst (step "pizza" (set_stack ("O" :: ["P"; "O"; "Z0"])
                       (snd (run ["order"] pizza_bot))))
    = fst (step "pizza" (snd (run ["order"] pizza_bot))) /\
  (exists ok, fst (step "pizza" (snd (run ["order"] pizza_bot))) = inr ok) /\
  current_state (snd (step "pizza" (set_stack ("O" :: ["P"; "O"; "Z0"])
                                      (snd (run ["order"] pizza_bot)))))
    = current_state (snd (step "pizza" (snd (run ["order"] pizza_bot)))) /\
  exists on_top : list string,
    stack (snd (step "pizza" (snd (run ["order"] pizza_bot))))
      = (on_top ++ ["Z0"])%list /\
    stack (snd (step "pizza" (set_stack ("O" :: ["P"; "O"; "Z0"])
                                (snd (run ["order"] pizza_bot)))))
      = (on_top ++ ["P"; "O"; "Z0"])%list.
Proof.
  apply (step_inspects_top_only (snd (run ["order"] pizza_bot)) "pizza" "O"
           ["Z0"] ["P"; "O"; "Z0"]).
  vm_compute. reflexivity.
Defined.
